(** * Sleeper MCP: the data-access and presentation layer of [SleeperAPI]

    A shallow embedding of the TypeScript class [SleeperAPI]: the player
    directory cache, the player-input resolver, the bracket engine, the
    enrichment of rosters and trending players, and the matchup, rank and
    draft-pick tables, followed by the properties proved about them.  The
    remote calls are embedded as far as the directory needs them; a method
    that only fetches and then transforms is embedded from the point where
    its fetches have resolved.

    Conventions of the embedding.
    - Integer-valued JSON numbers (match ids, rounds, roster ids, ranks) are
      [Z]; their string form [String(n)] is the decimal numeral [pretty n].
      That is how the runtime prints every safe integer ([Js.isSafeInteger],
      magnitude below [2^53]); a larger number is a rounded double, printed
      in exponent notation from [1e21] on, so a statement that depends on
      reading a number back from its numeral is made for safe integers.
      Fractional numbers (points) are IEEE-754 doubles, [float].
    - An optional field [f?: T] is [option T]; [None] is [undefined]
      (or JSON [null] where the payload is untyped).
    - Strings are sequences of code units; every literal the program compares
      or pads is ASCII, the emoji markers are opaque prefixes.
    - A JS object used as a dictionary is a [gmap] of its own properties;
      wherever the program enumerates its keys it sorts them, so no
      enumeration order is assumed (see [js_sort_perm]).  A read of the
      player directory, [this.players[id]], also finds what a plain object
      inherits from [Object.prototype] (see [playerOf]); the other
      dictionaries are read as maps of their own properties. *)

From Stdlib Require Import Ascii Floats.
From stdpp Require Import gmap strings list fin_maps pretty sorting.

Open Scope string_scope.
Open Scope list_scope.
Open Scope Z_scope.

(** ** The JavaScript runtime pieces the class relies on *)

Module Js.

(** [a || b] on a possibly absent string: the empty string is falsy. *)
Definition or_else (o : option string) (d : string) : string :=
  match o with
  | Some s => if decide (s = "") then d else s
  | None => d
  end.

(** Truthiness of a possibly absent integer-valued number. *)
Definition truthy (o : option Z) : bool :=
  match o with
  | Some z => negb (z =? 0)
  | None => false
  end.

(** Truthiness of a possibly absent string. *)
Definition truthy_str (o : option string) : bool :=
  match o with
  | Some s => negb (String.eqb s "")
  | None => false
  end.

Definition nl : string := String "010"%char "".

(** [s.repeat(n)] *)
Fixpoint repeat (s : string) (n : nat) : string :=
  match n with
  | O => ""
  | S n' => s +:+ repeat s n'
  end.

(** [s.padStart(n)] and [s.padEnd(n)] with the default filler, a space. *)
Definition padStart (n : nat) (s : string) : string :=
  repeat " " (n - String.length s)%nat +:+ s.

Definition padEnd (n : nat) (s : string) : string :=
  s +:+ repeat " " (n - String.length s)%nat.

Fixpoint trimStart (s : string) : string :=
  match s with
  | String a s' => if Ascii.is_space a then trimStart s' else s
  | "" => ""
  end.

Definition trimEnd (s : string) : string :=
  String.rev (trimStart (String.rev s)).

(** [s.trim()]; the white space removed is the ASCII white space (tab, line
    feed, vertical tab, form feed, carriage return, space). *)
Definition trim (s : string) : string := trimEnd (trimStart s).

(** [Array.prototype.sort] is stable: elements that compare equal keep their
    input order.  [ins] puts [x] in front of the first element it does not
    have to follow, so [sort_by] is the stable sort for the order [le]. *)
Fixpoint ins {A} (le : A → A → bool) (x : A) (l : list A) : list A :=
  match l with
  | [] => [x]
  | y :: l' => if le x y then x :: l else y :: ins le x l'
  end.

Definition sort_by {A} (le : A → A → bool) (l : list A) : list A :=
  foldr (ins le) [] l.

(** [arr.sort(cmp)] for a comparator with integer results: [a] stays in front
    of [b] unless [cmp(a, b) > 0]. *)
Definition sort_cmp {A} (cmp : A → A → Z) (l : list A) : list A :=
  sort_by (λ a b, cmp a b <=? 0) l.

(** [arr.sort(cmp)] for a comparator with floating-point results; a [NaN]
    result counts as equal. *)
Definition sort_cmpf {A} (cmp : A → A → float) (l : list A) : list A :=
  sort_by (λ a b, negb (PrimFloat.ltb 0%float (cmp a b))) l.

(** [arr.sort()] without a comparator: the elements are compared through
    their string forms, code unit by code unit. *)
Definition sort_strings (l : list string) : list string :=
  sort_by String.leb l.

Definition sort_numbers (l : list Z) : list Z :=
  sort_by (λ a b, String.leb (pretty a) (pretty b)) l.

(** [Object.keys(o)] of a dictionary, in the order the map happens to store
    them; every use below sorts the result. *)
Definition keys `{Countable K} {V} (o : gmap K V) : list K :=
  (map_to_list o).*1.

(** [/^\d+$/.test(s)]: one or more characters, each of them an ASCII digit.
    Without the [m] flag [$] matches at the very end of the input only. *)
Definition is_digit (a : ascii) : bool :=
  match Ascii.is_nat a with Some _ => true | None => false end.

Fixpoint all_digits (s : string) : bool :=
  match s with
  | "" => true
  | String a s' => is_digit a && all_digits s'
  end.

Definition digits_only (s : string) : bool :=
  negb (String.eqb s "") && all_digits s.

(** [Number.isSafeInteger(n)] for an integer [n]: below [2^53] in magnitude
    every integer is a double of its own, and [String(n)] is its decimal
    numeral. *)
Definition isSafeInteger (z : Z) : bool := Z.abs z <? 2 ^ 53.

(** The names of the members every plain object inherits from
    [Object.prototype].  [o[key]] finds them when [key] is no own property
    of [o]; each is a function, [__proto__] the prototype object itself. *)
Definition objectPrototypeKeys : list string :=
  [ "constructor"; "hasOwnProperty"; "isPrototypeOf"; "propertyIsEnumerable";
    "toLocaleString"; "toString"; "valueOf"; "__proto__";
    "__defineGetter__"; "__defineSetter__"; "__lookupGetter__"; "__lookupSetter__" ].

(** A call either returns a value or throws an [Error] with a message. *)
Inductive result (A : Type) : Type :=
| Ok (a : A)
| Throw (message : string).
Global Arguments Ok {A} a.
Global Arguments Throw {A} message.

End Js.

Import Js.

(** ** The data model *)

Module Player.
Record t : Type := mk {
  first_name : option string;
  last_name : option string;
  position : option string;
  team : option string;
  status : option string;
  fantasy_positions : option (list string)
}.
End Player.

Module PlayerSearchItem.
Record t : Type := mk {
  id : string;
  name : string;
  position : string;
  team : string
}.
End PlayerSearchItem.

Module EnrichedPlayer.
Record t : Type := mk {
  player_id : string;
  name : string;
  position : string;
  team : string;
  status : string;
  fantasy_positions : list string
}.
End EnrichedPlayer.

Module TeamFrom.
Record t : Type := mk {
  w : option Z;
  l : option Z
}.
End TeamFrom.

Module Match.
Record t : Type := mk {
  m : Z;
  r : Z;
  t1 : option Z;
  t2 : option Z;
  t1_from : option TeamFrom.t;
  t2_from : option TeamFrom.t;
  w : option Z;
  l : option Z;
  p : option Z
}.
End Match.

Module CacheData.
Record t : Type := mk {
  timestamp : Z;
  players : gmap string Player.t
}.
End CacheData.

(** ** Bracket engine *)

(** [rosterToUser[x] || `Roster ${x}`] *)
Definition rosterLabel (rosterToUser : gmap Z string) (x : option Z) : string :=
  match x with
  | Some z => or_else (rosterToUser !! z) ("Roster " +:+ pretty z)
  | None => "Roster undefined"
  end.

Definition getTeamName (teamId : option Z) (teamFrom : option TeamFrom.t)
    (rosterToUser : gmap Z string) : string :=
  match teamId with
  | Some z => or_else (rosterToUser !! z) ("Roster " +:+ pretty z)
  | None =>
      match teamFrom with
      | Some from =>
          match TeamFrom.w from with
          | Some k => "Winner of Match " +:+ pretty k
          | None =>
              match TeamFrom.l from with
              | Some k => "Loser of Match " +:+ pretty k
              | None => "TBD"
              end
          end
      | None => "TBD"
      end
  end.

Definition formatMatch (match_ : Match.t) (rosterToUser : gmap Z string) : string :=
  let matchId := Match.m match_ in
  let t1Name := getTeamName (Match.t1 match_) (Match.t1_from match_) rosterToUser in
  let t2Name := getTeamName (Match.t2 match_) (Match.t2_from match_) rosterToUser in
  let status :=
    match Match.w match_ with
    | Some w =>
        "✅ " +:+ rosterLabel rosterToUser (Some w) +:+ " defeats "
          +:+ rosterLabel rosterToUser (Match.l match_)
    | None => "⏳ Pending"
    end in
  let positionText :=
    if truthy (Match.p match_)
    then " (Position " +:+ pretty (default 0 (Match.p match_)) +:+ ")"
    else "" in
  "  Match " +:+ pretty matchId +:+ ": " +:+ t1Name +:+ " vs " +:+ t2Name
    +:+ " - " +:+ status +:+ positionText.

(** The [rounds] object: each round number with its matches in input order. *)
Definition groupByRound (bracket : list Match.t) : gmap Z (list Match.t) :=
  foldl (λ rounds match_,
           let roundNum := Match.r match_ in
           <[roundNum := default [] (rounds !! roundNum) ++ [match_]]> rounds)
        ∅ bracket.

Definition roundHeader (roundNum : Z) : list string :=
  [nl +:+ "ROUND " +:+ pretty roundNum +:+ ":"; repeat "-" 20].

Definition formatRound (rounds : gmap Z (list Match.t))
    (rosterToUser : gmap Z string) (roundNum : Z) : list string :=
  let sortedMatches :=
    sort_cmp (λ a b, Match.m a - Match.m b) (default [] (rounds !! roundNum)) in
  roundHeader roundNum ++ map (λ match_, formatMatch match_ rosterToUser) sortedMatches.

Definition formatBracket (bracket : list Match.t) (rosterToUser : gmap Z string)
    : list string :=
  match bracket with
  | [] => ["No bracket data available"]
  | _ =>
      let rounds := groupByRound bracket in
      flat_map (formatRound rounds rosterToUser) (sort_numbers (keys rounds))
  end.

(** [winnersBracket.reduce((max, match) => match.r > max.r ? match : max,
    winnersBracket[0])]; on an empty bracket the initial value, [undefined],
    comes back. *)
Definition winnersFinal (winnersBracket : list Match.t) : option Match.t :=
  match winnersBracket with
  | [] => None
  | first :: _ =>
      Some (foldl (λ max match_, if Match.r max <? Match.r match_ then match_ else max)
                  first winnersBracket)
  end.

Definition placeSlot (standings : gmap Z string) (rosterToUser : gmap Z string)
    (match_ : Match.t) : gmap Z string :=
  match Match.w match_, Match.l match_ with
  | Some w, Some l =>
      if truthy (Match.p match_) then
        let position := default 0 (Match.p match_) in
        let winner := rosterLabel rosterToUser (Some w) in
        let loser := rosterLabel rosterToUser (Some l) in
        if position =? 3 then <[4 := loser]> (<[3 := winner]> standings)
        else if position =? 5 then <[6 := loser]> (<[5 := winner]> standings)
        else if position =? 7 then <[8 := loser]> (<[7 := winner]> standings)
        else standings
      else standings
  | _, _ => standings
  end.

(** The [standings] object as it is just before the size test. *)
Definition standingsOf (winnersBracket losersBracket : list Match.t)
    (rosterToUser : gmap Z string) : gmap Z string :=
  let top :=
    match winnersFinal winnersBracket with
    | Some final =>
        match Match.w final with
        | Some w =>
            <[2 := rosterLabel rosterToUser (Match.l final)]>
              (<[1 := rosterLabel rosterToUser (Some w)]> ∅)
        | None => ∅
        end
    | None => ∅
    end in
  foldl (λ standings match_, placeSlot standings rosterToUser match_) top losersBracket.

(** The line pushed for place [pos] held by [who]. *)
Definition placeText (pos : Z) (who : string) : string :=
  if pos =? 1 then "🥇 1st Place: " +:+ who
  else if pos =? 2 then "🥈 2nd Place: " +:+ who
  else if pos =? 3 then "🥉 3rd Place: " +:+ who
  else "   " +:+ pretty pos +:+ "th Place: " +:+ who.

Definition placeLine (standings : gmap Z string) (pos : Z) : string :=
  placeText pos (default "undefined" (standings !! pos)).

Definition hasWinner (match_ : Match.t) : bool :=
  match Match.w match_ with Some _ => true | None => false end.

Definition generateFinalStandings (winnersBracket losersBracket : list Match.t)
    (rosterToUser : gmap Z string) : option (list string) :=
  let allMatches := winnersBracket ++ losersBracket in
  if negb (forallb hasWinner allMatches) then None
  else
    let standings := standingsOf winnersBracket losersBracket rosterToUser in
    if (size standings <? 2)%nat then None
    else Some (map (placeLine standings) (sort_numbers (keys standings))).

(** The roster→display-name map that [getPlayoffResults], [formatMatchupsTable]
    and [formatDraftPicksTable] build from the league's users and rosters. *)
Module User.
Record t : Type := mk {
  user_id : string;
  display_name : option string;
  username : option string
}.
End User.

Module Roster.
Record t : Type := mk {
  roster_id : Z;
  owner_id : option string
}.
End Roster.

Definition buildUserMap (users : list User.t) : gmap string string :=
  foldl (λ userMap user,
           <[User.user_id user :=
               or_else (User.display_name user)
                       (or_else (User.username user) "Unknown")]> userMap)
        ∅ users.

(** A roster without an owner carries [owner_id: null]; as a property key
    that is the string [null]. *)
Definition buildRosterToUser (users : list User.t) (rosters : list Roster.t)
    : gmap Z string :=
  let userMap := buildUserMap users in
  foldl (λ rosterToUser roster,
           <[Roster.roster_id roster :=
               or_else (userMap !! default "null" (Roster.owner_id roster))
                       "Unknown"]> rosterToUser)
        ∅ rosters.

(** [getPlayoffResults] once its four fetches have resolved. *)
Definition getPlayoffResults (winnersBracket losersBracket : list Match.t)
    (leagueUsers : list User.t) (rosters : list Roster.t) : string :=
  let rosterToUser := buildRosterToUser leagueUsers rosters in
  let winners :=
    match winnersBracket with
    | [] => []
    | _ => ["🏆 WINNERS BRACKET"; repeat "=" 50]
             ++ formatBracket winnersBracket rosterToUser ++ [""]
    end in
  let losers :=
    match losersBracket with
    | [] => []
    | _ => ["🥉 LOSERS BRACKET"; repeat "=" 50]
             ++ formatBracket losersBracket rosterToUser ++ [""]
    end in
  let final :=
    match generateFinalStandings winnersBracket losersBracket rosterToUser with
    | Some (line :: lines) => ["🏅 FINAL STANDINGS"; repeat "=" 50] ++ line :: lines
    | _ => []
    end in
  String.concat nl (winners ++ losers ++ final).

(** ** Player directory: enrichment and the search index *)

(** [`${player.first_name || ''} ${player.last_name || ''}`.trim()] *)
Definition displayName (player : Player.t) : string :=
  trim (or_else (Player.first_name player) "" +:+ " "
          +:+ or_else (Player.last_name player) "").

(** [this.players[playerId]].  The directory is a plain object: an entry of
    its own is found first, and a key that is none of its entries still reads
    the member of that name inherited from [Object.prototype].  Such a member
    is truthy and has none of the fields the class reads ([first_name],
    [last_name], [position], [team], [status], [fantasy_positions]): each of
    them is [undefined] on it, as on a player without fields. *)
Definition inheritedMember : Player.t :=
  Player.mk None None None None None None.

Definition playerOf (players : gmap string Player.t) (playerId : string)
    : option Player.t :=
  match players !! playerId with
  | Some player => Some player
  | None =>
      if bool_decide (playerId ∈ objectPrototypeKeys) then Some inheritedMember
      else None
  end.

Definition enrichPlayer (players : gmap string Player.t) (playerId : string)
    : EnrichedPlayer.t :=
  match playerOf players playerId with
  | Some player =>
      {| EnrichedPlayer.player_id := playerId;
         EnrichedPlayer.name := displayName player;
         EnrichedPlayer.position := or_else (Player.position player) "";
         EnrichedPlayer.team := or_else (Player.team player) "";
         EnrichedPlayer.status := or_else (Player.status player) "";
         EnrichedPlayer.fantasy_positions :=
           default [] (Player.fantasy_positions player) |}
  | None =>
      {| EnrichedPlayer.player_id := playerId;
         EnrichedPlayer.name := "Unknown Player";
         EnrichedPlayer.position := "";
         EnrichedPlayer.team := "";
         EnrichedPlayer.status := "Unknown";
         EnrichedPlayer.fantasy_positions := [] |}
  end.

Definition enrichPlayerIds (players : gmap string Player.t)
    (playerIds : list string) : list EnrichedPlayer.t :=
  map (enrichPlayer players) playerIds.

Definition searchItem (entry : string * Player.t) : option PlayerSearchItem.t :=
  let '(playerId, player) := entry in
  let name := displayName player in
  if decide (name = "") then None
  else Some {| PlayerSearchItem.id := playerId;
               PlayerSearchItem.name := name;
               PlayerSearchItem.position := or_else (Player.position player) "";
               PlayerSearchItem.team := or_else (Player.team player) "" |}.

Definition searchItems (players : gmap string Player.t) : list PlayerSearchItem.t :=
  omap searchItem (map_to_list players).

(** ** The client instance and its environment *)

(** Fuse.js is an external collaborator: an index over the search items,
    built with the weighted keys and threshold of [buildPlayerSearchIndex],
    answers [search(query, {limit})] with scored items, best match first. *)
Module FuseResult.
Record t : Type := mk {
  item : PlayerSearchItem.t;
  score : option float
}.
End FuseResult.

Class Fuse : Type :=
  fuse_search : list PlayerSearchItem.t → string → nat → list FuseResult.t.

(** What the directory endpoint answers to one request, and how long the
    request took in milliseconds. *)
Module Response.
Record t : Type := mk {
  ok : bool;
  status : Z;
  json : gmap string Player.t;
  elapsed : N
}.
End Response.

Inductive Event : Type :=
| Fetched (url : string)
| Searched (query : string) (limit : nat).

(** The environment: the clock read by [Date.now()] (milliseconds), the
    answers the directory endpoint will give to the requests still to come,
    and the record of the requests and index searches made so far. *)
Record World : Type := mkWorld {
  now : Z;
  responses : list Response.t;
  events : list Event
}.

(** The instance fields of [SleeperAPI] that the directory cache uses. *)
Record SleeperAPI : Type := mkSleeperAPI {
  players : gmap string Player.t;
  playersLoaded : bool;
  playerSearchItems : list PlayerSearchItem.t;
  playerFuse : option (list PlayerSearchItem.t);
  playersCache : option CacheData.t
}.

Definition newSleeperAPI : SleeperAPI :=
  {| players := ∅;
     playersLoaded := false;
     playerSearchItems := [];
     playerFuse := None;
     playersCache := None |}.

Definition State : Type := SleeperAPI * World.

(** Methods run in a state-and-exception monad; what a method changed before
    it threw stays changed. *)
Definition M (A : Type) : Type := State → result A * State.

Definition ret {A} (a : A) : M A := λ s, (Ok a, s).

Definition throw {A} (message : string) : M A := λ s, (Throw message, s).

Definition bind {A B} (c : M A) (k : A → M B) : M B :=
  λ s, match c s with
       | (Ok a, s') => k a s'
       | (Throw message, s') => (Throw message, s')
       end.

Notation "'let*' x ':=' c 'in' k" := (bind c (λ x, k))
  (at level 10, x name, c at level 100, k at level 200, only parsing).

Definition this : M SleeperAPI := λ s, (Ok (fst s), s).

Definition assign (f : SleeperAPI → SleeperAPI) : M unit :=
  λ s, (Ok tt, (f (fst s), snd s)).

Definition Date_now : M Z := λ s, (Ok (now (snd s)), s).

Definition BASE_URL : string := "https://api.sleeper.app/v1".
Definition CACHE_DURATION_HOURS : Z := 24.

(** [fetch(url)] against the directory endpoint: the next pending answer is
    consumed, the clock moves on by the time the request took, and the
    request is recorded.  With no answer pending the request fails. *)
Definition fetch (url : string) : M Response.t :=
  λ s, let '(api, world) := s in
       match responses world with
       | [] =>
           (Throw "fetch failed",
            (api, {| now := now world; responses := [];
                     events := events world ++ [Fetched url] |}))
       | response :: rest =>
           (Ok response,
            (api, {| now := now world + Z.of_N (Response.elapsed response);
                     responses := rest;
                     events := events world ++ [Fetched url] |}))
       end.

Definition getPlayers (sport : string) : M (gmap string Player.t) :=
  let url := BASE_URL +:+ "/players/" +:+ sport in
  let* response := fetch url in
  if Response.ok response then ret (Response.json response)
  else throw ("HTTP error! status: " +:+ pretty (Response.status response)).

(** Assignments to the instance fields. *)
Definition set_players (v : gmap string Player.t) (api : SleeperAPI) : SleeperAPI :=
  {| players := v;
     playersLoaded := playersLoaded api;
     playerSearchItems := playerSearchItems api;
     playerFuse := playerFuse api;
     playersCache := playersCache api |}.

Definition set_playersLoaded (v : bool) (api : SleeperAPI) : SleeperAPI :=
  {| players := players api;
     playersLoaded := v;
     playerSearchItems := playerSearchItems api;
     playerFuse := playerFuse api;
     playersCache := playersCache api |}.

Definition set_playersCache (v : option CacheData.t) (api : SleeperAPI) : SleeperAPI :=
  {| players := players api;
     playersLoaded := playersLoaded api;
     playerSearchItems := playerSearchItems api;
     playerFuse := playerFuse api;
     playersCache := v |}.

Definition set_searchIndex (items : list PlayerSearchItem.t) (api : SleeperAPI)
    : SleeperAPI :=
  {| players := players api;
     playersLoaded := playersLoaded api;
     playerSearchItems := items;
     playerFuse := Some items;
     playersCache := playersCache api |}.

Definition buildPlayerSearchIndex : M unit :=
  assign (λ api, set_searchIndex (searchItems (players api)) api).

Definition getCacheData : M (option CacheData.t) :=
  let* api := this in ret (playersCache api).

(** [Date.now() / 1000 - cacheData.timestamp < CACHE_DURATION_HOURS * 3600],
    with both sides scaled by 1000 so that the clock's milliseconds stay
    integers. *)
Definition isCacheValid (cacheData : CacheData.t) : M bool :=
  let* t := Date_now in
  let cacheAge := t - 1000 * CacheData.timestamp cacheData in
  ret (cacheAge <? CACHE_DURATION_HOURS * 3600 * 1000).

Definition refreshPlayersCache : M unit :=
  let* playersData := getPlayers "nfl" in
  let* _ := assign (set_players playersData) in
  let* t := Date_now in
  let* _ := assign (set_playersCache
               (Some {| CacheData.timestamp := t `div` 1000;
                        CacheData.players := playersData |})) in
  buildPlayerSearchIndex.

Definition loadPlayersCache : M unit :=
  let* cacheData := getCacheData in
  match cacheData with
  | Some cacheData =>
      let* valid := isCacheValid cacheData in
      if valid then
        let* _ := assign (set_players (CacheData.players cacheData)) in
        buildPlayerSearchIndex
      else refreshPlayersCache
  | None => refreshPlayersCache
  end.

Definition ensurePlayersLoaded : M unit :=
  let* api := this in
  if negb (playersLoaded api) then
    let* _ := loadPlayersCache in
    assign (set_playersLoaded true)
  else ret tt.

(** ** Fuzzy resolver *)

Module NameMatch.
Record t : Type := mk {
  playerId : string;
  matchedName : string;
  score : option float
}.
End NameMatch.

Section Resolver.
Context `{Fuse}.

(** [this.playerFuse!.search(query, { limit })]; the search is recorded. *)
Definition search (query : string) (limit : nat) : M (list FuseResult.t) :=
  λ s, let '(api, world) := s in
       match playerFuse api with
       | Some index =>
           (Ok (fuse_search index query limit),
            (api, {| now := now world; responses := responses world;
                     events := events world ++ [Searched query limit] |}))
       | None =>
           (Throw "TypeError: Cannot read properties of null (reading 'search')", s)
       end.

Definition getPlayerIdByName (playerName : string) : M (option NameMatch.t) :=
  let* _ := ensurePlayersLoaded in
  let* api := this in
  let* _ := (if playerFuse api is None then buildPlayerSearchIndex else ret tt) in
  let* results := search playerName 1 in
  match results with
  | match_ :: _ =>
      ret (Some {| NameMatch.playerId := PlayerSearchItem.id (FuseResult.item match_);
                   NameMatch.matchedName := PlayerSearchItem.name (FuseResult.item match_);
                   NameMatch.score := FuseResult.score match_ |})
  | [] => ret None
  end.

Definition resolvePlayerInput (playerInput : string) : M string :=
  if digits_only playerInput then ret playerInput
  else
    let* result := getPlayerIdByName playerInput in
    match result with
    | Some found => ret (NameMatch.playerId found)
    | None => throw ("Player not found: " +:+ playerInput)
    end.

Definition searchPlayers (query : string) (limit : nat) : M (list PlayerSearchItem.t) :=
  let* _ := ensurePlayersLoaded in
  let* api := this in
  let* _ := (if playerFuse api is None then buildPlayerSearchIndex else ret tt) in
  let* results := search query limit in
  ret (map FuseResult.item results).

End Resolver.

(** ** Table formatters *)

(** [Number.prototype.toFixed] on doubles is taken as given. *)
Class NumberFormat : Type :=
  toFixed : nat → float → string.

(** [x || 0] on a possibly absent double: [0], [-0] and [NaN] are falsy. *)
Definition or_zero (o : option float) : float :=
  match o with
  | Some x =>
      if PrimFloat.eqb x 0%float || negb (PrimFloat.eqb x x) then 0%float else x
  | None => 0%float
  end.

(** Formatters that can throw run in the exception monad. *)
Definition rbind {A B} (c : result A) (k : A → result B) : result B :=
  match c with
  | Ok a => k a
  | Throw message => Throw message
  end.

Fixpoint mapM {A B} (f : A → result B) (l : list A) : result (list B) :=
  match l with
  | [] => Ok []
  | x :: l' => rbind (f x) (λ y, rbind (mapM f l') (λ ys, Ok (y :: ys)))
  end.

(** [parseInt(s)]: leading white space, an optional sign, then the longest
    run of decimal digits; [None] is [NaN].  (The radix-16 prefix cannot
    occur in the property keys it is applied to.) *)
Fixpoint digitsValue (acc : option Z) (s : string) : option Z :=
  match s with
  | String a s' =>
      match Ascii.is_nat a with
      | Some d => digitsValue (Some (10 * default 0 acc + Z.of_nat d)) s'
      | None => acc
      end
  | "" => acc
  end.

Definition parseInt (s : string) : option Z :=
  match trimStart s with
  | String "-" s' => Z.opp <$> digitsValue None s'
  | String "+" s' => digitsValue None s'
  | s' => digitsValue None s'
  end.

(** A value used as a property key: a number by its string form, JSON
    [null] as the string [null], [NaN] as the string [NaN].  The string form
    of a safe integer is its decimal numeral, and it is for safe integers
    that a key is read back as the number it came from. *)
Definition keyOfId (o : option Z) : string :=
  match o with Some z => pretty z | None => "null" end.

Definition keyOfNumber (o : option Z) : string :=
  match o with Some z => pretty z | None => "NaN" end.

Module Matchup.
Record t : Type := mk {
  matchup_id : option Z;
  roster_id : Z;
  points : float;
  starters : list string;
  starters_points : list float
}.
End Matchup.

Module Stats.
Record t : Type := mk {
  rank_ppr : option Z;
  pos_rank_ppr : option Z;
  pts_ppr : option float
}.
End Stats.

Module RankRecord.
Record t : Type := mk {
  player_id : option string;
  stats : option Stats.t
}.
End RankRecord.

Definition is_upper (a : ascii) : bool :=
  let n := N_of_ascii a in (65 <=? n)%N && (n <=? 90)%N.

Fixpoint all_upper (s : string) : bool :=
  match s with
  | "" => true
  | String a s' => is_upper a && all_upper s'
  end.

(** [/^[A-Z]+$/.test(s)] *)
Definition upper_only (s : string) : bool :=
  negb (String.eqb s "") && all_upper s.

(** The [matchupGroups] object: each [matchup_id] key with its entries in
    input order. *)
Definition groupByMatchup (matchups : list Matchup.t) : gmap string (list Matchup.t) :=
  foldl (λ matchupGroups matchup,
           let key := keyOfId (Matchup.matchup_id matchup) in
           <[key := default [] (matchupGroups !! key) ++ [matchup]]> matchupGroups)
        ∅ matchups.

(** The rows [formatPlayerRanksTable] keeps: filter, sort, slice. *)
Definition ranked (playerData : RankRecord.t) : bool :=
  truthy_str (RankRecord.player_id playerData)
  && match RankRecord.stats playerData with
     | Some stats => truthy (Stats.rank_ppr stats)
     | None => false
     end.

Definition rankOf (playerData : RankRecord.t) : Z :=
  match RankRecord.stats playerData with
  | Some stats => default 0 (Stats.rank_ppr stats)
  | None => 0
  end.

Definition sortedPlayers (data : list RankRecord.t) : list RankRecord.t :=
  take 200 (sort_cmp (λ a b, rankOf a - rankOf b) (filter (λ x, ranked x = true) data)).

Section Formatters.
Context `{NumberFormat}.
Variable players : gmap string Player.t.

Definition starterLine (starterPoints : list float) (i : nat) (playerId : string)
    : string :=
  let points := or_else (toFixed 1 <$> starterPoints !! i) "0.0" in
  let playerInfo :=
    if String.eqb playerId "0" then "Empty Slot"
    else if (String.length playerId <=? 3)%nat && upper_only playerId
    then playerId +:+ " DST"
    else
      match playerOf players playerId with
      | Some player =>
          let name := displayName player in
          let position := or_else (Player.position player) "N/A" in
          let team := or_else (Player.team player) "N/A" in
          name +:+ " (" +:+ position +:+ ", " +:+ team +:+ ")"
      | None => "Unknown Player"
      end in
  "  " +:+ padEnd 35 playerInfo +:+ " " +:+ padStart 6 points +:+ " pts".

Definition formatStarters (starters : list string) (starterPoints : list float)
    : string :=
  String.concat nl (imap (starterLine starterPoints) starters).

(** The lines of one pairing; [teams] has exactly two entries. *)
Definition formatPairing (rosterToUser : gmap Z string) (matchupId : string)
    (teams : list Matchup.t) : list string :=
  match sort_cmpf (λ a b, PrimFloat.sub (Matchup.points b) (Matchup.points a)) teams with
  | [team1; team2] =>
      let winner :=
        if PrimFloat.ltb (Matchup.points team2) (Matchup.points team1) then Some team1
        else if PrimFloat.ltb (Matchup.points team1) (Matchup.points team2) then Some team2
        else None in
      let indicator (team : Matchup.t) :=
        match winner with
        | Some won =>
            if Matchup.roster_id won =? Matchup.roster_id team then " 🏆" else ""
        | None => ""
        end in
      let teamLines (team : Matchup.t) :=
        [ or_else (rosterToUser !! Matchup.roster_id team) "Unknown" +:+ ": "
            +:+ toFixed 2 (Matchup.points team) +:+ indicator team;
          formatStarters (Matchup.starters team) (Matchup.starters_points team);
          "" ] in
      ["MATCHUP " +:+ matchupId; repeat "-" 40] ++ teamLines team1 ++ teamLines team2
  | _ => []
  end.

(** One turn of the loop over the sorted keys: the key goes through
    [parseInt] and back into a property key before the group is read. *)
Definition formatGroup (rosterToUser : gmap Z string)
    (matchupGroups : gmap string (list Matchup.t)) (matchupId : string)
    : result (list string) :=
  match matchupGroups !! keyOfNumber (parseInt matchupId) with
  | None => Throw "TypeError: Cannot read properties of undefined (reading 'length')"
  | Some teams =>
      if (length teams =? 2)%nat then Ok (formatPairing rosterToUser matchupId teams)
      else Ok []
  end.

Definition formatMatchupsTable (matchups : list Matchup.t) (users : list User.t)
    (rosters : list Roster.t) (week : Z) : result string :=
  match matchups with
  | [] => Ok "No matchup data available"
  | _ =>
      let rosterToUser := buildRosterToUser users rosters in
      let matchupGroups := groupByMatchup matchups in
      let header := ["WEEK " +:+ pretty week +:+ " MATCHUPS"; repeat "=" 80; ""] in
      rbind (mapM (formatGroup rosterToUser matchupGroups)
                  (sort_strings (keys matchupGroups)))
            (λ groups, Ok (String.concat nl (header ++ concat groups)))
  end.

Definition ranksHeader : string :=
  "Rank | Pos Rank | Player Name                | Pos | Team | PPR Pts".

Definition rankRow (playerData : RankRecord.t) : result string :=
  let playerId := default "" (RankRecord.player_id playerData) in
  match RankRecord.stats playerData with
  | None => Throw "TypeError: Cannot read properties of undefined (reading 'rank_ppr')"
  | Some stats =>
      let player := playerOf players playerId in
      match Stats.rank_ppr stats, Stats.pos_rank_ppr stats with
      | Some rankPpr, Some posRankPpr =>
          let rank := padStart 4 (pretty rankPpr) in
          let posRank := padStart 8 (pretty posRankPpr) in
          let name :=
            match player with
            | Some player => displayName player
            | None => "Unknown Player"
            end in
          let paddedName := padEnd 26 name in
          let position := padEnd 3 (or_else (player ≫= Player.position) "N/A") in
          let team := padEnd 4 (or_else (player ≫= Player.team) "N/A") in
          let pprPts := padStart 7 (toFixed 1 (or_zero (Stats.pts_ppr stats))) in
          Ok (rank +:+ " | " +:+ posRank +:+ " | " +:+ paddedName +:+ " | "
                +:+ position +:+ " | " +:+ team +:+ " | " +:+ pprPts)
      | _, _ => Throw "TypeError: Cannot read properties of undefined (reading 'toString')"
      end
  end.

Definition formatPlayerRanksTable (data : list RankRecord.t) : result string :=
  match data with
  | [] => Ok "No player rankings data available"
  | _ =>
      let separator := repeat "-" (String.length ranksHeader) in
      rbind (mapM rankRow (sortedPlayers data))
            (λ rows, Ok (String.concat nl (ranksHeader :: separator :: rows)))
  end.

End Formatters.

(** ** Vocabulary of the statements *)

(** The losers-bracket match that ends up deciding the pair of places
    [k], [k + 1]: the last one in the list whose slot [p] is [k] and whose
    winner and loser are both recorded. *)
Definition decides (k : Z) (match_ : Match.t) : bool :=
  bool_decide (Match.p match_ = Some k)
  && bool_decide (is_Some (Match.w match_))
  && bool_decide (is_Some (Match.l match_)).

Definition slotMatch (k : Z) (losersBracket : list Match.t) : option Match.t :=
  last (filter (λ x, decides k x = true) losersBracket).

(** Who holds place [pos], read off the two brackets. *)
Definition placeOf (winnersBracket losersBracket : list Match.t)
    (rosterToUser : gmap Z string) (pos : Z) : option string :=
  if pos =? 1 then
    (λ final, rosterLabel rosterToUser (Match.w final)) <$> winnersFinal winnersBracket
  else if pos =? 2 then
    (λ final, rosterLabel rosterToUser (Match.l final)) <$> winnersFinal winnersBracket
  else if (pos =? 3) || (pos =? 5) || (pos =? 7) then
    (λ match_, rosterLabel rosterToUser (Match.w match_)) <$> slotMatch pos losersBracket
  else if (pos =? 4) || (pos =? 6) || (pos =? 8) then
    (λ match_, rosterLabel rosterToUser (Match.l match_)) <$> slotMatch (pos - 1) losersBracket
  else None.

(** The places that are held, in ascending order, each with its holder. *)
Definition finalPlaces (winnersBracket losersBracket : list Match.t)
    (rosterToUser : gmap Z string) : list (Z * string) :=
  omap (λ pos, (pos,.) <$> placeOf winnersBracket losersBracket rosterToUser pos)
       [1; 2; 3; 4; 5; 6; 7; 8].

(** The order [sort()] puts numbers in: that of their numerals as strings. *)
Definition numeral_le (a b : Z) : Prop := String.le (pretty a) (pretty b).

(** ** Further vocabulary and sample data *)

Definition isSlot (k : Z) : bool := (k =? 3) || (k =? 5) || (k =? 7).

Definition later_round (max match_ : Match.t) : Match.t :=
  if Match.r max <? Match.r match_ then match_ else max.

Definition allPlaces : list Z := [1; 2; 3; 4; 5; 6; 7; 8].

Definition sampleWinners : list Match.t :=
  [Match.mk 1 1 (Some 1) (Some 2) None None (Some 1) (Some 2) None].
Definition sampleLosers : list Match.t :=
  [Match.mk 2 1 (Some 3) (Some 4) None None (Some 3) (Some 4) (Some 3)].
Definition unrecordedLoser : Match.t :=
  Match.mk 2 1 (Some 3) (Some 4) None None (Some 3) None (Some 3).

Definition joshAllen : Player.t :=
  Player.mk (Some "Josh") (Some "Allen") (Some "QB") (Some "BUF") None None.

Definition sampleDirectory : gmap string Player.t := {["4046" := joshAllen]}.

(** The same state at clock reading [t]. *)
Definition atTime (t : Z) (s : State) : State :=
  (s.1, {| now := t; responses := responses s.2; events := events s.2 |}).

Definition playersUrl : string := BASE_URL +:+ "/players/nfl".

Definition directoryResponse : Response.t :=
  {| Response.ok := true; Response.status := 200;
     Response.json := sampleDirectory; Response.elapsed := 0 |}.

Definition coldStart : State :=
  (newSleeperAPI,
   {| now := 0; responses := [directoryResponse; directoryResponse]; events := [] |}).

Definition afterLoad : State := (ensurePlayersLoaded coldStart).2.

Definition plainFormat : NumberFormat := λ _ _, "0.0".

Definition sampleRanks : list RankRecord.t :=
  [ RankRecord.mk (Some "2") (Some (Stats.mk (Some 2) (Some 1) None));
    RankRecord.mk (Some "9") (Some (Stats.mk None (Some 4) None));
    RankRecord.mk None (Some (Stats.mk (Some 3) (Some 3) None));
    RankRecord.mk (Some "1") (Some (Stats.mk (Some 1) (Some 1) None)) ].

(** The round numbers in the order [formatBracket] emits them. *)
Definition roundsEmitted (bracket : list Match.t) : list Z :=
  sort_numbers (remove_dups (Match.r <$> bracket)).

(** The matches of one round in the order they are listed. *)
Definition roundMatches (bracket : list Match.t) (roundNum : Z) : list Match.t :=
  sort_cmp (λ a b, Match.m a - Match.m b)
           (filter (λ x, Match.r x = roundNum) bracket).

(** The public operations that use the player directory, and a client's
    life as a sequence of them. *)
Inductive Call : Type :=
| CallEnsure
| CallResolve (playerInput : string)
| CallSearch (query : string) (limit : nat).

Definition call `{Fuse} (c : Call) (s : State) : State :=
  match c with
  | CallEnsure => (ensurePlayersLoaded s).2
  | CallResolve playerInput => (resolvePlayerInput playerInput s).2
  | CallSearch query limit => (searchPlayers query limit s).2
  end.

Definition run `{Fuse} (calls : list Call) (s : State) : State :=
  foldl (λ s c, call c s) s calls.

(** The index searches a sequence of calls asks for. *)
Definition searchesOf (calls : list Call) : list Event :=
  omap (λ c, match c with
             | CallEnsure => None
             | CallResolve playerInput =>
                 if digits_only playerInput then None
                 else Some (Searched playerInput 1)
             | CallSearch query limit => Some (Searched query limit)
             end) calls.

(** The index, the snapshot and the directory of a client agree. *)
Definition coherent (api : SleeperAPI) : Prop :=
  playerSearchItems api = searchItems (players api)
  ∧ (playerFuse api = None ∨ playerFuse api = Some (searchItems (players api)))
  ∧ (playersLoaded api = true →
       playerFuse api = Some (searchItems (players api))
       ∧ ∃ cache, playersCache api = Some cache
                  ∧ CacheData.players cache = players api).

Definition failedResponse : Response.t :=
  {| Response.ok := false; Response.status := 503;
     Response.json := ∅; Response.elapsed := 0 |}.

(** The pairings [formatMatchupsTable] lists, as property keys in the order
    of the listing. *)
Definition matchupKey (matchup : Matchup.t) : string :=
  keyOfId (Matchup.matchup_id matchup).

Definition keysEmitted (matchups : list Matchup.t) : list string :=
  sort_strings (remove_dups (matchupKey <$> matchups)).

Definition sampleMatchups : list Matchup.t :=
  [Matchup.mk (Some 1) 1 0%float [] []; Matchup.mk (Some 2) 3 0%float [] [];
   Matchup.mk (Some 1) 2 0%float [] []].

(** The section of the playoff report for one bracket. *)
Definition bracketSection (title : string) (bracket : list Match.t)
    (rosterToUser : gmap Z string) : list string :=
  match bracket with
  | [] => []
  | _ => [title; repeat "=" 50] ++ formatBracket bracket rosterToUser ++ [""]
  end.

(** ** Trending players and the raw rank dictionary *)

Module PlayerInfo.
Record t : Type := mk {
  name : string;
  position : string;
  team : string;
  status : string;
  fantasy_positions : list string
}.
End PlayerInfo.

(** The [player_info] that [getTrendingPlayers] attaches to an item:
    [if (playerId && this.players[playerId])]. *)
Definition trendingInfo (players : gmap string Player.t) (player_id : option string)
    : PlayerInfo.t :=
  let unknown := PlayerInfo.mk "Unknown Player" "" "" "Unknown" [] in
  if truthy_str player_id then
    match playerOf players (default "" player_id) with
    | Some player =>
        {| PlayerInfo.name := displayName player;
           PlayerInfo.position := or_else (Player.position player) "";
           PlayerInfo.team := or_else (Player.team player) "";
           PlayerInfo.status := or_else (Player.status player) "";
           PlayerInfo.fantasy_positions := default [] (Player.fantasy_positions player) |}
    | None => unknown
    end
  else unknown.

Definition infoOf (enriched : EnrichedPlayer.t) : PlayerInfo.t :=
  {| PlayerInfo.name := EnrichedPlayer.name enriched;
     PlayerInfo.position := EnrichedPlayer.position enriched;
     PlayerInfo.team := EnrichedPlayer.team enriched;
     PlayerInfo.status := EnrichedPlayer.status enriched;
     PlayerInfo.fantasy_positions := EnrichedPlayer.fantasy_positions enriched |}.

Module Rank.
Record t : Type := mk {
  rank_ppr : option Z;
  pos_rank_ppr : option Z
}.
End Rank.




(** ** The draft-pick table *)

Module PickMetadata.
Record t : Type := mk {
  first_name : option string;
  last_name : option string;
  position : option string;
  team : option string
}.
End PickMetadata.

Module Pick.
Record t : Type := mk {
  round : Z;
  pick_no : Z;
  metadata : option PickMetadata.t;
  roster_id : Z
}.
End Pick.

Definition draftHeader : string :=
  "Round | Pick | Player Name                | Pos | NFL Team | Drafted By Team".

Definition draftRow (rosterToUser : gmap Z string) (pick : Pick.t) : string :=
  let round := padStart 5 (pretty (Pick.round pick)) in
  let pickNo := padStart 4 (pretty (Pick.pick_no pick)) in
  let firstName := or_else (Pick.metadata pick ≫= PickMetadata.first_name) "" in
  let lastName := or_else (Pick.metadata pick ≫= PickMetadata.last_name) "" in
  let playerName :=
    or_else (Some (trim (firstName +:+ " " +:+ lastName))) "Unknown Player" in
  let paddedName := padEnd 26 playerName in
  let position := padEnd 3 (or_else (Pick.metadata pick ≫= PickMetadata.position) "N/A") in
  let nflTeam := padEnd 8 (or_else (Pick.metadata pick ≫= PickMetadata.team) "N/A") in
  let draftedBy := padEnd 15 (or_else (rosterToUser !! Pick.roster_id pick) "Unknown") in
  round +:+ " | " +:+ pickNo +:+ " | " +:+ paddedName +:+ " | " +:+ position
    +:+ " | " +:+ nflTeam +:+ " | " +:+ draftedBy.

Definition formatDraftPicksTable (picks : list Pick.t) (users : list User.t)
    (rosters : list Roster.t) : string :=
  match picks with
  | [] => "No draft picks data available"
  | _ =>
      let rosterToUser := buildRosterToUser users rosters in
      let separator := repeat "-" (String.length draftHeader) in
      String.concat nl (draftHeader :: separator :: map (draftRow rosterToUser) picks)
  end.

(** The six cells of a draft-pick row before padding. *)
Definition draftCells (rosterToUser : gmap Z string) (pick : Pick.t) : list string :=
  let firstName := or_else (Pick.metadata pick ≫= PickMetadata.first_name) "" in
  let lastName := or_else (Pick.metadata pick ≫= PickMetadata.last_name) "" in
  [ pretty (Pick.round pick);
    pretty (Pick.pick_no pick);
    or_else (Some (trim (firstName +:+ " " +:+ lastName))) "Unknown Player";
    or_else (Pick.metadata pick ≫= PickMetadata.position) "N/A";
    or_else (Pick.metadata pick ≫= PickMetadata.team) "N/A";
    or_else (rosterToUser !! Pick.roster_id pick) "Unknown" ].

(** The width a cell takes in a column of width [n]. *)
Definition cellWidth (n : nat) (cell : string) : nat := Nat.max n (String.length cell).

(** The column widths of the draft-pick table and of the rank table. *)
Definition draftWidths : list nat := [5; 4; 26; 3; 8; 15]%nat.
Definition rankWidths : list nat := [4; 8; 26; 3; 4; 7]%nat.

(** The six cells of a rank-table row before padding. *)
Definition rankCells `{NumberFormat} (players : gmap string Player.t)
    (playerData : RankRecord.t) : list string :=
  let player := playerOf players (default "" (RankRecord.player_id playerData)) in
  let stats := RankRecord.stats playerData in
  [ from_option pretty "" (stats ≫= Stats.rank_ppr);
    from_option pretty "" (stats ≫= Stats.pos_rank_ppr);
    from_option displayName "Unknown Player" player;
    or_else (player ≫= Player.position) "N/A";
    or_else (player ≫= Player.team) "N/A";
    toFixed 1 (or_zero (stats ≫= Stats.pts_ppr)) ].

Definition bryceYoung : Pick.t :=
  Pick.mk 1 1 (Some (PickMetadata.mk (Some "Bryce") (Some "Young") (Some "QB") (Some "CAR"))) 3.

(** ** Roster enrichment in [getLeagueRosters] *)

Module LeagueRoster.
Record t : Type := mk {
  players : option (list string);
  starters : option (list string);
  reserve : option (list string);
  players_enriched : option (list EnrichedPlayer.t);
  starters_enriched : option (list EnrichedPlayer.t);
  reserve_enriched : option (list EnrichedPlayer.t)
}.
End LeagueRoster.

(** [if (ids && ids.length > 0) enriched = this.enrichPlayerIds(ids)] *)
Definition enrichList (players : gmap string Player.t) (ids : option (list string))
    (enriched : option (list EnrichedPlayer.t)) : option (list EnrichedPlayer.t) :=
  match ids with
  | Some (playerId :: playerIds) => Some (enrichPlayerIds players (playerId :: playerIds))
  | _ => enriched
  end.

Definition enrichRoster (players : gmap string Player.t) (roster : LeagueRoster.t)
    : LeagueRoster.t :=
  {| LeagueRoster.players := LeagueRoster.players roster;
     LeagueRoster.starters := LeagueRoster.starters roster;
     LeagueRoster.reserve := LeagueRoster.reserve roster;
     LeagueRoster.players_enriched :=
       enrichList players (LeagueRoster.players roster)
                  (LeagueRoster.players_enriched roster);
     LeagueRoster.starters_enriched :=
       enrichList players (LeagueRoster.starters roster)
                  (LeagueRoster.starters_enriched roster);
     LeagueRoster.reserve_enriched :=
       enrichList players (LeagueRoster.reserve roster)
                  (LeagueRoster.reserve_enriched roster) |}.

(** [getLeagueRosters(leagueId, enrichPlayers)] once the rosters have been
    fetched and the directory is loaded. *)
Definition getLeagueRosters (players : gmap string Player.t)
    (rosters : list LeagueRoster.t) (enrichPlayers : bool) : list LeagueRoster.t :=
  if enrichPlayers then map (enrichRoster players) rosters else rosters.

(** The three id lists of a roster, each with its enriched list before and
    after [enrichRoster]. *)
Definition rosterLists (players : gmap string Player.t) (roster : LeagueRoster.t)
    : list (option (list string) * option (list EnrichedPlayer.t)
            * option (list EnrichedPlayer.t)) :=
  let after := enrichRoster players roster in
  [ (LeagueRoster.players roster, LeagueRoster.players_enriched roster,
     LeagueRoster.players_enriched after);
    (LeagueRoster.starters roster, LeagueRoster.starters_enriched roster,
     LeagueRoster.starters_enriched after);
    (LeagueRoster.reserve roster, LeagueRoster.reserve_enriched roster,
     LeagueRoster.reserve_enriched after) ].

(** * Properties *)

(** ** Sorting as [Array.prototype.sort] does *)

Section SortBy.
Context {A : Type} (le : A → A → bool).

Lemma ins_perm (x : A) (l : list A) : ins le x l ≡ₚ x :: l.
Proof.
  induction l as [|y l IH]; simpl; [done|].
  destruct (le x y); [done|]. rewrite IH. apply Permutation_swap.
Qed.

Lemma sort_by_perm (l : list A) : sort_by le l ≡ₚ l.
Proof.
  induction l as [|x l IH]; simpl; [done|].
  unfold sort_by in *. simpl. rewrite ins_perm. by rewrite IH.
Qed.

Lemma sort_by_length (l : list A) : length (sort_by le l) = length l.
Proof. apply Permutation_length, sort_by_perm. Qed.

Hypothesis le_total : ∀ a b, le a b = true ∨ le b a = true.
Hypothesis le_trans : ∀ a b c, le a b = true → le b c = true → le a c = true.

Lemma ins_sorted (x : A) (l : list A) :
  StronglySorted (λ a b, le a b = true) l →
  StronglySorted (λ a b, le a b = true) (ins le x l).
Proof.
  induction 1 as [|y l Hl IH Hy]; simpl.
  - repeat constructor.
  - destruct (le x y) eqn:Hxy.
    + constructor; [by constructor|].
      constructor; [done|]. eapply Forall_impl; [exact Hy|]. naive_solver.
    + constructor; [done|].
      rewrite ins_perm. constructor; [|done].
      destruct (le_total x y); congruence.
Qed.

Lemma sort_by_sorted (l : list A) :
  StronglySorted (λ a b, le a b = true) (sort_by le l).
Proof.
  induction l as [|x l IH]; [constructor|]. by apply ins_sorted.
Qed.

End SortBy.

Lemma StronglySorted_mono {A} (R1 R2 : relation A) (l : list A) :
  (∀ a b, R1 a b → R2 a b) → StronglySorted R1 l → StronglySorted R2 l.
Proof.
  intros Himpl. induction 1 as [|x l Hl IH Hx]; constructor; [done|].
  eapply Forall_impl; [exact Hx|]. auto.
Qed.

Global Instance numeral_le_dec : RelDecision numeral_le.
Proof. intros a b. unfold numeral_le. apply _. Defined.

Global Instance numeral_le_trans : Transitive numeral_le.
Proof. intros a b c. unfold numeral_le. apply transitivity. Qed.

Global Instance numeral_le_antisym : AntiSymm (=) numeral_le.
Proof.
  intros a b Hab Hba. unfold numeral_le in *.
  apply (inj pretty). by apply (anti_symm String.le).
Qed.

Global Instance numeral_le_total : Total numeral_le.
Proof. intros a b. unfold numeral_le. apply total, _. Qed.

Lemma sort_numbers_sorted (l : list Z) : StronglySorted numeral_le (sort_numbers l).
Proof.
  unfold sort_numbers.
  eapply (StronglySorted_mono (λ a b, String.leb (pretty a) (pretty b) = true)).
  - intros a b Hab. by apply Is_true_true.
  - apply sort_by_sorted.
    + intros a b. destruct (total numeral_le a b) as [Hle|Hle]; [left|right];
        by apply Is_true_true.
    + intros a b c ?%Is_true_true ?%Is_true_true. apply Is_true_true.
      by trans (pretty b).
Qed.

(** The outcome of [sort()] does not depend on the order its input came in. *)
Lemma js_sort_perm (l l' : list Z) :
  l ≡ₚ l' → StronglySorted numeral_le l' → sort_numbers l = l'.
Proof.
  intros Hperm Hsorted. apply (StronglySorted_unique numeral_le); [|done|].
  - apply sort_numbers_sorted.
  - by rewrite <-Hperm; apply sort_by_perm.
Qed.

(** ** Final standings *)

Lemma placeSlot_lookup (standings rosterToUser : gmap Z string) (x : Match.t) (pos : Z) :
  placeSlot standings rosterToUser x !! pos =
    if isSlot pos && decides pos x then Some (rosterLabel rosterToUser (Match.w x))
    else if isSlot (pos - 1) && decides (pos - 1) x
         then Some (rosterLabel rosterToUser (Match.l x))
         else standings !! pos.
Proof.
  unfold placeSlot, decides, isSlot, truthy.
  destruct x as [m r t1 t2 f1 f2 [w|] [l|] [p|]]; simpl;
    repeat case_bool_decide; simplify_eq/=;
    repeat match goal with
           | |- context [?a =? ?b] => destruct (Z.eqb_spec a b); simplify_eq/=
           | H : is_Some None |- _ => destruct H as [? ?]; done
           | H : ¬ is_Some (Some _) |- _ => destruct H; eauto
           end;
    simplify_map_eq; try done; try lia;
    try (repeat (rewrite lookup_insert_ne by lia); done);
    match goal with
    | e : ?q - 1 = _ |- _ =>
        let E := fresh in
        assert (q = 4 ∨ q = 6 ∨ q = 8) as E by lia;
        destruct E as [-> | [-> | ->]]; by simplify_map_eq
    end.
Qed.

Lemma slotMatch_snoc (k : Z) (lb : list Match.t) (x : Match.t) :
  slotMatch k (lb ++ [x]) = if decides k x then Some x else slotMatch k lb.
Proof.
  unfold slotMatch. rewrite filter_app, filter_cons, filter_nil.
  destruct (decides k x) eqn:Hd.
  - rewrite decide_True by done. by rewrite last_snoc.
  - rewrite decide_False by congruence. by rewrite app_nil_r.
Qed.

Lemma fold_placeSlot_lookup (top rosterToUser : gmap Z string)
    (lb : list Match.t) (pos : Z) :
  foldl (λ standings match_, placeSlot standings rosterToUser match_) top lb !! pos =
    if isSlot pos then
      match slotMatch pos lb with
      | Some x => Some (rosterLabel rosterToUser (Match.w x))
      | None => top !! pos
      end
    else if isSlot (pos - 1) then
      match slotMatch (pos - 1) lb with
      | Some x => Some (rosterLabel rosterToUser (Match.l x))
      | None => top !! pos
      end
    else top !! pos.
Proof.
  induction lb as [|x lb IH] using rev_ind.
  - simpl. unfold slotMatch. simpl. by repeat case_match.
  - rewrite foldl_snoc, placeSlot_lookup, IH, !slotMatch_snoc.
    destruct (isSlot pos) eqn:Hs; simpl.
    + destruct (decides pos x); [done|].
      assert (isSlot (pos - 1) = false) as ->; [|done].
      unfold isSlot in *. lia.
    + destruct (isSlot (pos - 1)); simpl; [|done].
      by destruct (decides (pos - 1) x).
Qed.

Lemma fold_later_round (a : Match.t) (l : list Match.t) :
  let f := foldl later_round a l in
  (f = a ∧ ∀ x, x ∈ l → Match.r x ≤ Match.r a)
  ∨ (∃ pre post, l = pre ++ f :: post ∧ Match.r a < Match.r f
       ∧ (∀ x, x ∈ pre → Match.r x < Match.r f)
       ∧ (∀ x, x ∈ post → Match.r x ≤ Match.r f)).
Proof.
  revert a. induction l as [|x l IH]; intros a; simpl.
  { left. split; [done|]. intros x Hx. by apply elem_of_nil in Hx. }
  assert (later_round a x = if Match.r a <? Match.r x then x else a) as -> by done.
  destruct (Z.ltb_spec (Match.r a) (Match.r x)) as [Hlt|Hge].
  - right. destruct (IH x) as [[Hf Hle] | (pre & post & Hl & Hlt' & Hpre & Hpost)].
    + exists [], l. simpl in *. rewrite Hf. repeat split; auto.
      intros y Hy. by apply elem_of_nil in Hy.
    + exists (x :: pre), post. simpl in *. repeat split; auto.
      * congruence.
      * lia.
      * intros y [->|Hy]%elem_of_cons; auto.
  - destruct (IH a) as [[Hf Hle] | (pre & post & Hl & Hlt' & Hpre & Hpost)].
    + left. simpl in *. split; [done|].
      intros y [->|Hy]%elem_of_cons; auto.
    + right. exists (x :: pre), post. simpl in *. repeat split; auto.
      * congruence.
      * intros y [->|Hy]%elem_of_cons; auto. lia.
Qed.

(** [winnersFinal] is the first match, in list order, of the highest round. *)
Lemma winnersFinal_first_highest (wb : list Match.t) (final : Match.t) :
  winnersFinal wb = Some final →
  ∃ pre post, wb = pre ++ final :: post
    ∧ (∀ x, x ∈ pre → Match.r x < Match.r final)
    ∧ (∀ x, x ∈ post → Match.r x ≤ Match.r final).
Proof.
  destruct wb as [|first rest]; simpl; [done|]. intros [= <-].
  rewrite Z.ltb_irrefl.
  destruct (fold_later_round first rest) as [[Hf Hle] | (pre & post & Hl & Hlt & Hpre & Hpost)];
    fold later_round in *.
  - exists [], rest. simpl. rewrite Hf. repeat split; auto.
    intros y Hy. by apply elem_of_nil in Hy.
  - exists (first :: pre), post. simpl. repeat split; auto.
    + congruence.
    + intros y [->|Hy]%elem_of_cons; auto.
Qed.

Lemma winnersFinal_elem_of (wb : list Match.t) (final : Match.t) :
  winnersFinal wb = Some final → final ∈ wb.
Proof.
  intros (pre & post & -> & _)%winnersFinal_first_highest.
  apply elem_of_app. right. apply elem_of_cons. by left.
Qed.

Lemma winnersFinal_None (wb : list Match.t) : winnersFinal wb = None ↔ wb = [].
Proof. by destruct wb. Qed.

Lemma hasWinner_Some (x : Match.t) : hasWinner x = true → ∃ w, Match.w x = Some w.
Proof. unfold hasWinner. destruct (Match.w x); eauto; done. Qed.

Lemma standingsOf_lookup (wb lb : list Match.t) (rosterToUser : gmap Z string) (pos : Z) :
  forallb hasWinner wb = true →
  standingsOf wb lb rosterToUser !! pos = placeOf wb lb rosterToUser pos.
Proof.
  intros Hall. unfold standingsOf. rewrite fold_placeSlot_lookup. unfold placeOf.
  destruct (winnersFinal wb) as [final|] eqn:Hfinal; simpl.
  - destruct (hasWinner_Some final) as [w Hw].
    { rewrite forallb_forall in Hall. apply Hall, list_elem_of_In.
      by apply winnersFinal_elem_of. }
    rewrite Hw. unfold isSlot.
    repeat match goal with
           | |- context [?a =? ?b] => destruct (Z.eqb_spec a b); simplify_eq/=
           end; try lia; try done;
      try (by destruct (slotMatch _ lb));
      try (by repeat (rewrite lookup_insert_ne by lia)).
    all: try (repeat (rewrite lookup_insert_ne by lia); rewrite lookup_empty;
              by destruct (slotMatch _ lb)).
  - unfold isSlot.
    repeat match goal with
           | |- context [?a =? ?b] => destruct (Z.eqb_spec a b); simplify_eq/=
           end; try lia; try done;
      by destruct (slotMatch _ lb).
Qed.

Lemma allPlaces_sorted : StronglySorted numeral_le allPlaces.
Proof.
  unfold allPlaces.
  repeat (constructor; [|repeat (constructor; [by vm_compute|]); constructor]).
  constructor.
Qed.

Lemma placeOf_range wb lb rosterToUser pos :
  is_Some (placeOf wb lb rosterToUser pos) → pos ∈ allPlaces.
Proof.
  unfold placeOf, allPlaces. rewrite !elem_of_cons.
  destruct (Z.eqb_spec pos 1); [intros _; lia|].
  destruct (Z.eqb_spec pos 2); [intros _; lia|].
  destruct (Z.eqb_spec pos 3); [intros _; lia|].
  destruct (Z.eqb_spec pos 5); [intros _; lia|].
  destruct (Z.eqb_spec pos 7); [intros _; lia|].
  destruct (Z.eqb_spec pos 4); [intros _; lia|].
  destruct (Z.eqb_spec pos 6); [intros _; lia|].
  destruct (Z.eqb_spec pos 8); [intros _; lia|].
  simpl. by intros [? ?].
Qed.

Lemma finalPlaces_fst wb lb rosterToUser :
  (finalPlaces wb lb rosterToUser).*1
  = filter (λ pos, is_Some (placeOf wb lb rosterToUser pos)) allPlaces.
Proof.
  unfold finalPlaces. fold allPlaces. induction allPlaces as [|pos l IH]; [done|].
  rewrite filter_cons. cbn [omap list_omap].
  destruct (placeOf wb lb rosterToUser pos) as [who|] eqn:Hp; cbn.
  - rewrite decide_True by eauto. cbn. by rewrite IH.
  - rewrite decide_False by (by intros [? ?]). done.
Qed.

Lemma finalPlaces_elem_of wb lb rosterToUser pos who :
  (pos, who) ∈ finalPlaces wb lb rosterToUser →
  placeOf wb lb rosterToUser pos = Some who.
Proof.
  unfold finalPlaces. intros (pos' & _ & Hp)%list_elem_of_omap.
  destruct (placeOf wb lb rosterToUser pos') eqn:E; simplify_eq/=. done.
Qed.

Lemma StronglySorted_filter {A} (R : relation A) (P : A → Prop)
    `{!∀ x, Decision (P x)} (l : list A) :
  StronglySorted R l → StronglySorted R (filter P l).
Proof.
  induction 1 as [|x l Hl IH Hx]; [constructor|].
  rewrite filter_cons. case_decide; [|done]. constructor; [done|].
  apply Forall_forall. intros y [_ Hy]%list_elem_of_filter.
  by eapply Forall_forall in Hx.
Qed.

Lemma keys_standingsOf wb lb rosterToUser :
  forallb hasWinner wb = true →
  sort_numbers (keys (standingsOf wb lb rosterToUser))
  = (finalPlaces wb lb rosterToUser).*1.
Proof.
  intros Hall. apply js_sort_perm.
  - rewrite finalPlaces_fst. apply NoDup_Permutation.
    + apply NoDup_fst_map_to_list.
    + apply NoDup_filter. unfold allPlaces. apply (bool_decide_unpack _). by vm_compute.
    + intros pos. unfold keys. rewrite list_elem_of_filter.
      rewrite <-(standingsOf_lookup wb lb rosterToUser pos Hall).
      split.
      * intros ([pos' who] & -> & Hin%elem_of_map_to_list)%list_elem_of_fmap. simpl.
        split; [eauto|]. apply (placeOf_range wb lb rosterToUser).
        rewrite <-standingsOf_lookup by done. eauto.
      * intros [[who Hwho] _]. apply list_elem_of_fmap. exists (pos, who).
        split; [done|]. by apply elem_of_map_to_list.
  - rewrite finalPlaces_fst. apply StronglySorted_filter, allPlaces_sorted.
Qed.

Lemma size_standingsOf wb lb rosterToUser :
  forallb hasWinner wb = true →
  size (standingsOf wb lb rosterToUser) = length (finalPlaces wb lb rosterToUser).
Proof.
  intros Hall. rewrite <-length_map_to_list.
  rewrite <-(length_fmap fst (finalPlaces _ _ _)), <-keys_standingsOf by done.
  unfold sort_numbers. rewrite sort_by_length. unfold keys. by rewrite length_fmap.
Qed.

Lemma generateFinalStandings_finalPlaces wb lb rosterToUser :
  forallb hasWinner (wb ++ lb) = true →
  generateFinalStandings wb lb rosterToUser =
    let places := finalPlaces wb lb rosterToUser in
    if (length places <? 2)%nat then None
    else Some (map (λ place, placeText place.1 place.2) places).
Proof.
  intros Hall. unfold generateFinalStandings. rewrite Hall. simpl.
  rewrite forallb_app in Hall. apply andb_prop in Hall as [Hwb _].
  rewrite size_standingsOf, keys_standingsOf by done.
  destruct (length (finalPlaces wb lb rosterToUser) <? 2)%nat; [done|].
  f_equal. change (map ?f ?l) with (f <$> l).
  rewrite <-list_fmap_compose. apply Forall_fmap_ext, Forall_forall.
  intros [pos who] Hin%finalPlaces_elem_of. simpl. unfold placeLine.
  by rewrite standingsOf_lookup, Hin.
Qed.

Lemma slotMatch_None (k : Z) (lb : list Match.t) :
  Forall (λ x, Match.p x ≠ Some k) lb → slotMatch k lb = None.
Proof.
  intros Hlb. unfold slotMatch.
  replace (filter (λ x, decides k x = true) lb) with (@nil Match.t); [done|].
  symmetry. induction Hlb as [|x lb Hx _ IH]; [done|].
  rewrite filter_cons, decide_False; [done|].
  unfold decides. rewrite bool_decide_eq_false_2 by done. done.
Qed.

Lemma slotMatch_Some (k : Z) (lb : list Match.t) (x : Match.t) :
  slotMatch k lb = Some x →
  x ∈ lb ∧ Match.p x = Some k ∧ is_Some (Match.w x) ∧ is_Some (Match.l x)
  ∧ ∃ pre post, lb = pre ++ x :: post ∧ Forall (λ y, decides k y = false) post.
Proof.
  induction lb as [|y lb IH] using rev_ind; [done|].
  rewrite slotMatch_snoc. destruct (decides k y) eqn:Hd.
  - intros [= ->]. split; [apply elem_of_app; right; by apply list_elem_of_singleton|].
    unfold decides in Hd. apply andb_prop in Hd as [[H1 H2]%andb_prop H3].
    apply bool_decide_eq_true in H1, H2, H3. repeat split; try done.
    exists lb, []. by split.
  - intros (Hin & Hp & Hw & Hl & pre & post & -> & Hpost)%IH.
    split; [apply elem_of_app; by left|]. repeat split; try done.
    exists pre, (post ++ [y]). split; [by rewrite <-app_assoc|].
    apply Forall_app. split; [done|]. by constructor.
Qed.

(** Claim C2, as the code has it.  When every match of both brackets has a
    recorded winner, the standings are exactly the held places in ascending
    order: places 1 and 2 go to the winner and the loser of the first
    winners-bracket match, in list order, of the highest round; for [k] in
    3, 5, 7, places [k] and [k + 1] go to the winner and the loser of the
    last losers-bracket match whose [p] is [k] and whose loser is recorded
    too; no other place appears, and fewer than two held places give
    [null]. *)
Theorem generateFinalStandings_places wb lb rosterToUser :
  forallb hasWinner (wb ++ lb) = true →
  generateFinalStandings wb lb rosterToUser =
    (let places := finalPlaces wb lb rosterToUser in
     if (length places <? 2)%nat then None
     else Some (map (λ place, placeText place.1 place.2) places))
  ∧ (∀ final, winnersFinal wb = Some final →
       ∃ pre post, wb = pre ++ final :: post
         ∧ (∀ x, x ∈ pre → Match.r x < Match.r final)
         ∧ (∀ x, x ∈ post → Match.r x ≤ Match.r final))
  ∧ (∀ k x, slotMatch k lb = Some x →
       Match.p x = Some k ∧ is_Some (Match.l x)
       ∧ ∃ pre post, lb = pre ++ x :: post ∧ Forall (λ y, decides k y = false) post).
Proof.
  intros Hall. split; [by apply generateFinalStandings_finalPlaces|]. split.
  - apply winnersFinal_first_highest.
  - intros k x (_ & Hp & _ & Hl & Hsplit)%slotMatch_Some. auto.
Qed.

Lemma generateFinalStandings_places_witness :
  generateFinalStandings sampleWinners sampleLosers ∅ =
    Some ["🥇 1st Place: Roster 1"; "🥈 2nd Place: Roster 2";
          "🥉 3rd Place: Roster 3"; "   4th Place: Roster 4"].
Proof.
  destruct (generateFinalStandings_places sampleWinners sampleLosers ∅) as [-> _];
    [reflexivity|]. vm_compute. reflexivity.
Defined.

(** Claim C2 as stated fails: a losers-bracket match with [p = 3] and a
    recorded winner, but no recorded loser, is skipped, so no 3rd place is
    assigned although every match has a winner. *)
Lemma generateFinalStandings_unrecorded_loser :
  forallb hasWinner (sampleWinners ++ [unrecordedLoser]) = true
  ∧ Match.p unrecordedLoser = Some 3
  ∧ generateFinalStandings sampleWinners [unrecordedLoser] ∅ =
      Some ["🥇 1st Place: Roster 1"; "🥈 2nd Place: Roster 2"].
Proof. by vm_compute. Qed.

(** Claim C3.  If some match of either bracket has no recorded winner,
    [generateFinalStandings] returns [null]. *)
Theorem generateFinalStandings_pending wb lb rosterToUser (x : Match.t) :
  x ∈ wb ++ lb → Match.w x = None →
  generateFinalStandings wb lb rosterToUser = None.
Proof.
  intros Hin Hw. unfold generateFinalStandings.
  destruct (forallb hasWinner (wb ++ lb)) eqn:Hall; [|done].
  rewrite forallb_forall in Hall. apply list_elem_of_In, Hall in Hin.
  unfold hasWinner in Hin. by rewrite Hw in Hin.
Qed.

Lemma generateFinalStandings_pending_witness :
  generateFinalStandings sampleWinners
    [Match.mk 2 1 (Some 3) (Some 4) None None None None (Some 3)] ∅ = None.
Proof.
  apply (generateFinalStandings_pending _ _ _
           (Match.mk 2 1 (Some 3) (Some 4) None None None None (Some 3))).
  - apply elem_of_app. right. apply list_elem_of_singleton. reflexivity.
  - reflexivity.
Defined.

Lemma finalPlaces_no_slots (lb : list Match.t) rosterToUser :
  Forall (λ x, Match.p x ∉ [Some 3; Some 5; Some 7]) lb →
  finalPlaces [] lb rosterToUser = [].
Proof.
  intros Hlb. unfold finalPlaces, placeOf. simpl.
  rewrite !slotMatch_None; [done|..];
    (eapply Forall_impl; [exact Hlb|]; intros x Hx Hp; apply Hx; rewrite Hp;
     rewrite !elem_of_cons; auto).
Qed.

(** Claim C10.  Even when every match has a recorded winner,
    [generateFinalStandings] returns [null] whenever fewer than two placement
    entries are derived; an empty winners bracket with no losers-bracket
    match of slot 3, 5 or 7 is such a case. *)
Theorem generateFinalStandings_too_few wb lb rosterToUser :
  forallb hasWinner (wb ++ lb) = true →
  (size (standingsOf wb lb rosterToUser) < 2)%nat
  ∨ (wb = [] ∧ Forall (λ x, Match.p x ∉ [Some 3; Some 5; Some 7]) lb) →
  generateFinalStandings wb lb rosterToUser = None.
Proof.
  intros Hall [Hfew | [-> Hnone]].
  - unfold generateFinalStandings. rewrite Hall. simpl.
    by apply Nat.ltb_lt in Hfew as ->.
  - rewrite generateFinalStandings_finalPlaces by done.
    by rewrite finalPlaces_no_slots.
Qed.

Lemma generateFinalStandings_too_few_witness :
  generateFinalStandings []
    [Match.mk 1 1 (Some 3) (Some 4) None None (Some 3) (Some 4) None] ∅ = None.
Proof.
  apply generateFinalStandings_too_few; [reflexivity|].
  right. split; [reflexivity|].
  constructor; [|constructor]. simpl. rewrite !elem_of_cons, elem_of_nil.
  intros [H|[H|[H|H]]]; try discriminate H. exact H.
Defined.

(** Claim C5 at a bracket with rounds 2 and 10: [sort()] without a
    comparator orders the round numbers by their numerals, so round 10 is
    emitted before round 2. *)
Theorem formatBracket_rounds_as_strings :
  formatBracket
    [Match.mk 1 2 (Some 1) (Some 2) None None None None None;
     Match.mk 2 10 (Some 3) (Some 4) None None None None None] ∅
  = [nl +:+ "ROUND 10:"; "--------------------";
     "  Match 2: Roster 3 vs Roster 4 - ⏳ Pending";
     nl +:+ "ROUND 2:"; "--------------------";
     "  Match 1: Roster 1 vs Roster 2 - ⏳ Pending"].
Proof. by vm_compute. Qed.

(** ** Team names and enrichment *)

Lemma or_else_default (o : option string) : or_else o "" = default "" o.
Proof. destruct o as [s|]; simpl; [|done]. by case_decide. Qed.

Lemma or_else_nonempty (o : option string) (d : string) :
  d ≠ "" → or_else o d ≠ "".
Proof. intros Hd. destruct o as [s|]; simpl; [|done]. by case_decide. Qed.

Lemma or_else_Some (s d : string) : s ≠ "" → or_else (Some s) d = s.
Proof. intros Hs. simpl. by rewrite decide_False. Qed.

(** Every name in the roster map is a non-empty string. *)
Lemma buildRosterToUser_nonempty users rosters (z : Z) (name : string) :
  buildRosterToUser users rosters !! z = Some name → name ≠ "".
Proof.
  unfold buildRosterToUser. generalize (buildUserMap users) as userMap.
  intros userMap.
  assert (∀ acc : gmap Z string,
    map_Forall (λ _ v, v ≠ "") acc →
    map_Forall (λ _ v, v ≠ "")
      (foldl (λ rosterToUser roster,
                <[Roster.roster_id roster :=
                    or_else (userMap !! default "null" (Roster.owner_id roster))
                            "Unknown"]> rosterToUser) acc rosters)) as Hinv.
  { induction rosters as [|roster rosters IH]; intros acc Hacc; simpl; [done|].
    apply IH, map_Forall_insert_2; [|done]. by apply or_else_nonempty. }
  intros Hz. eapply (Hinv ∅); [apply map_Forall_empty|exact Hz].
Qed.

(** Claim C6.  For every slot and every roster map that the facade
    builds: a direct roster id resolves through the map, with fallback
    [Roster <id>] when unmapped; else a forward reference renders
    [Winner of Match <id>] or [Loser of Match <id>], read off the slot alone,
    so the referenced match's outcome is never consulted; else [TBD]. *)
Theorem getTeamName_precedence users rosters
    (teamId : option Z) (teamFrom : option TeamFrom.t) :
  let rosterToUser := buildRosterToUser users rosters in
  getTeamName teamId teamFrom rosterToUser =
    match teamId with
    | Some id => default ("Roster " +:+ pretty id) (rosterToUser !! id)
    | None =>
        match teamFrom with
        | Some (TeamFrom.mk (Some k) _) => "Winner of Match " +:+ pretty k
        | Some (TeamFrom.mk None (Some k)) => "Loser of Match " +:+ pretty k
        | _ => "TBD"
        end
    end.
Proof.
  intros rosterToUser. destruct teamId as [id|]; simpl.
  - destruct (rosterToUser !! id) as [name|] eqn:Hname; simpl; [|done].
    rewrite decide_False; [done|]. by eapply buildRosterToUser_nonempty.
  - by destruct teamFrom as [[[k|] [k'|]]|].
Qed.

(** Claim C4, as the code has it.  For a player id present in the
    directory the enriched record has the trimmed [first last] name, copies
    position and team (the empty string when absent), and defaults a missing
    status to the empty string and missing fantasy positions to the empty
    list. *)
Theorem enrichPlayerIds_present (players : gmap string Player.t)
    (playerIds : list string) (i : nat) (playerId : string) (player : Player.t) :
  playerIds !! i = Some playerId →
  players !! playerId = Some player →
  enrichPlayerIds players playerIds !! i =
    Some {| EnrichedPlayer.player_id := playerId;
            EnrichedPlayer.name :=
              trim (default "" (Player.first_name player) +:+ " "
                      +:+ default "" (Player.last_name player));
            EnrichedPlayer.position := default "" (Player.position player);
            EnrichedPlayer.team := default "" (Player.team player);
            EnrichedPlayer.status := default "" (Player.status player);
            EnrichedPlayer.fantasy_positions :=
              default [] (Player.fantasy_positions player) |}.
Proof.
  intros Hi Hp. unfold enrichPlayerIds.
  change (map ?f ?l) with (f <$> l). rewrite list_lookup_fmap, Hi. simpl.
  unfold enrichPlayer, playerOf, displayName. rewrite Hp.
  by rewrite !or_else_default.
Qed.

Lemma enrichPlayerIds_present_witness :
  enrichPlayerIds sampleDirectory ["4046"] !! 0%nat =
    Some (EnrichedPlayer.mk "4046" "Josh Allen" "QB" "BUF" "" []).
Proof.
  apply (enrichPlayerIds_present sampleDirectory ["4046"] 0 "4046" joshAllen).
  - reflexivity.
  - vm_compute. reflexivity.
Defined.

(** Claim C4 as stated fails: for a player in the directory without a
    status, the enriched status is the empty string, not [Unknown]. *)
Lemma enrichPlayerIds_status_not_Unknown :
  sampleDirectory !! "4046" = Some joshAllen
  ∧ Player.status joshAllen = None
  ∧ EnrichedPlayer.status <$> enrichPlayerIds sampleDirectory ["4046"] = [""]
  ∧ EnrichedPlayer.status <$> enrichPlayerIds sampleDirectory ["4046"]
      ≠ ["Unknown"].
Proof. by vm_compute. Qed.

(** ** The directory cache and the resolver *)

Lemma ensurePlayersLoaded_loaded (api : SleeperAPI) (world : World) :
  playersLoaded api = true →
  ensurePlayersLoaded (api, world) = (Ok tt, (api, world)).
Proof. intros Hl. unfold ensurePlayersLoaded, bind, this. simpl. by rewrite Hl. Qed.

(** Claim C1 fails in its second half, against the expiry the code itself
    sets out.  A client loads the directory at time 0: one fetch, and a
    snapshot stamped 0.  It asks again 24 hours and one minute later.  At
    that moment [isCacheValid] answers [false] for the snapshot, but
    [ensurePlayersLoaded] never gets to that test, because the
    [playersLoaded] flag is still set: the call returns at once, the fetch
    of the first load stays the only one, the snapshot keeps its timestamp
    and the next response is still waiting. *)
Theorem ensurePlayersLoaded_no_refresh_after_24h :
  let asked := atTime (24 * 3600 * 1000 + 60000) afterLoad in
  let later := (ensurePlayersLoaded asked).2 in
  playersLoaded afterLoad.1 = true
  ∧ (CacheData.timestamp <$> playersCache afterLoad.1) = Some 0
  ∧ events afterLoad.2 = [Fetched playersUrl]
  ∧ ((λ cache, (isCacheValid cache asked).1) <$> playersCache afterLoad.1)
    = Some (Ok false)
  ∧ (ensurePlayersLoaded asked).1 = Ok tt
  ∧ events later.2 = [Fetched playersUrl]
  ∧ (CacheData.timestamp <$> playersCache later.1) = Some 0
  ∧ length (responses later.2) = 1%nat.
Proof. by vm_compute. Qed.

Section ResolverFacts.
Context `{Fuse}.

(** Claim C7.  A digits-only input is returned verbatim with the client
    and its environment untouched: no load, no fetch, no search.  Any other
    input loads the directory if needed and runs one search with limit 1; the
    first hit's id is returned, and without a hit the error message is
    [Player not found: ] followed by the input. *)
Theorem resolvePlayerInput_paths (playerInput : string) (s : State) :
  resolvePlayerInput playerInput s =
    if digits_only playerInput then (Ok playerInput, s)
    else
      match ensurePlayersLoaded s with
      | (Throw message, s') => (Throw message, s')
      | (Ok _, (api, world)) =>
          let index := default (searchItems (players api)) (playerFuse api) in
          let s' :=
            (if playerFuse api is Some _ then api else set_searchIndex index api,
             {| now := now world; responses := responses world;
                events := events world ++ [Searched playerInput 1] |}) in
          match fuse_search index playerInput 1 with
          | found :: _ => (Ok (PlayerSearchItem.id (FuseResult.item found)), s')
          | [] => (Throw ("Player not found: " +:+ playerInput), s')
          end
      end.
Proof.
  unfold resolvePlayerInput. destruct (digits_only playerInput); [done|].
  unfold getPlayerIdByName, bind.
  destruct (ensurePlayersLoaded s) as [[[]|message] [api world]]; [|done].
  unfold this. simpl. destruct (playerFuse api) as [index|] eqn:Hfuse; simpl.
  - unfold search. simpl. rewrite Hfuse.
    by destruct (fuse_search index playerInput 1).
  - unfold search. simpl.
    by destruct (fuse_search (searchItems (players api)) playerInput 1).
Qed.

End ResolverFacts.

(** ** The rank table and the matchup table *)

(** A sort by a numeric key leaves the list in ascending key order. *)
Lemma sort_cmp_key_sorted {A} (key : A → Z) (l : list A) :
  StronglySorted (λ a b, key a ≤ key b) (sort_cmp (λ a b, key a - key b) l).
Proof.
  unfold sort_cmp.
  eapply (StronglySorted_mono (λ a b, (key a - key b <=? 0) = true)).
  - intros a b Hab. apply Z.leb_le in Hab. lia.
  - apply sort_by_sorted.
    + intros a b. rewrite !Z.leb_le. lia.
    + intros a b c. rewrite !Z.leb_le. lia.
Qed.

Lemma StronglySorted_take {A} (R : relation A) (n : nat) (l : list A) :
  StronglySorted R l → StronglySorted R (take n l).
Proof.
  intros Hl. rewrite <-(take_drop n l) in Hl. by apply StronglySorted_app_1_l in Hl.
Qed.

Lemma ranked_fields (x : RankRecord.t) :
  ranked x = true →
  (∃ playerId, RankRecord.player_id x = Some playerId ∧ playerId ≠ "")
  ∧ ∃ stats rank, RankRecord.stats x = Some stats
      ∧ Stats.rank_ppr stats = Some rank ∧ rank ≠ 0.
Proof.
  unfold ranked, truthy_str, truthy.
  destruct (RankRecord.player_id x) as [playerId|]; [|done].
  destruct (RankRecord.stats x) as [stats|]; [|by rewrite andb_false_r].
  destruct (Stats.rank_ppr stats) as [rank|] eqn:Hr; [|by rewrite andb_false_r].
  intros [Hid Hrank]%andb_prop. split.
  - exists playerId. split; [reflexivity|]. intros Heq. subst playerId. discriminate Hid.
  - exists stats, rank. split; [reflexivity|]. split; [exact Hr|]. intros Heq. subst rank. discriminate Hrank.
Qed.

Lemma sortedPlayers_elem_of (data : list RankRecord.t) (x : RankRecord.t) :
  x ∈ sortedPlayers data → x ∈ data ∧ ranked x = true.
Proof.
  unfold sortedPlayers, sort_cmp. intros Hx.
  apply (subseteq_take 200) in Hx.
  rewrite sort_by_perm in Hx. apply list_elem_of_filter in Hx. tauto.
Qed.

Lemma mapM_length {A B} (f : A → result B) (l : list A) (ys : list B) :
  mapM f l = Ok ys → length ys = length l.
Proof.
  revert ys. induction l as [|x l IH]; intros ys; simpl.
  - by intros [= <-].
  - destruct (f x) as [y|]; simpl; [|done].
    destruct (mapM f l) as [ys'|]; simpl; [|done].
    intros [= <-]. simpl. f_equal. by apply IH.
Qed.

Lemma mapM_Ok {A B} (f : A → result B) (l : list A) :
  (∀ x, x ∈ l → ∃ y, f x = Ok y) → ∃ ys, mapM f l = Ok ys.
Proof.
  induction l as [|x l IH]; intros Hf; simpl; [by eexists|].
  destruct (Hf x) as [y ->]; [by left|]. simpl.
  destruct IH as [ys ->]; [|by eexists].
  intros z Hz. apply Hf. by right.
Qed.

Section FormatterFacts.
Context `{NumberFormat}.

(** Claim C8.  The rows of the rank table come only from records with a
    player id and a [stats.rank_ppr], are in ascending order of [rank_ppr],
    and are at most 200; the table is the header, the rule and one line per
    row, and it is produced whenever the kept records carry a
    [pos_rank_ppr]. *)
Theorem formatPlayerRanksTable_rows (players : gmap string Player.t)
    (data : list RankRecord.t) :
  let rows := sortedPlayers data in
  (∀ x, x ∈ rows →
     x ∈ data
     ∧ (∃ playerId, RankRecord.player_id x = Some playerId)
     ∧ ∃ stats rank, RankRecord.stats x = Some stats ∧ Stats.rank_ppr stats = Some rank)
  ∧ StronglySorted (λ a b, rankOf a ≤ rankOf b) rows
  ∧ (length rows ≤ 200)%nat
  ∧ formatPlayerRanksTable players data =
      match data with
      | [] => Ok "No player rankings data available"
      | _ =>
          rbind (mapM (rankRow players) rows)
            (λ lines, Ok (String.concat nl
               (ranksHeader :: repeat "-" (String.length ranksHeader) :: lines)))
      end
  ∧ (∀ lines, mapM (rankRow players) rows = Ok lines → length lines = length rows)
  ∧ ((∀ x stats, x ∈ rows → RankRecord.stats x = Some stats →
        is_Some (Stats.pos_rank_ppr stats)) →
     ∃ lines, mapM (rankRow players) rows = Ok lines).
Proof.
  intros rows.
  split; [|split; [|split; [|split; [|split]]]].
  - intros x Hx. pose proof (sortedPlayers_elem_of _ _ Hx) as [Hin Hr].
    apply ranked_fields in Hr as [(playerId & Hid & _) (stats & rank & Hs & Hrank & _)].
    eauto 8.
  - apply StronglySorted_take, sort_cmp_key_sorted.
  - unfold rows, sortedPlayers. rewrite length_take. lia.
  - unfold formatPlayerRanksTable. by destruct data.
  - apply mapM_length.
  - intros Hpos. apply mapM_Ok. intros x Hx.
    pose proof (sortedPlayers_elem_of _ _ Hx) as [_ Hr].
    apply ranked_fields in Hr as [_ (stats & rank & Hs & Hrank & _)].
    destruct (Hpos x stats Hx Hs) as [posRank Hpr].
    unfold rankRow. rewrite Hs, Hrank, Hpr. by eexists.
Qed.

End FormatterFacts.

Lemma formatPlayerRanksTable_rows_witness :
  ∃ lines, mapM (rankRow (H := plainFormat) ∅) (sortedPlayers sampleRanks) = Ok lines
           ∧ length lines = 2%nat.
Proof.
  destruct (formatPlayerRanksTable_rows (H := plainFormat) ∅ sampleRanks)
    as (_ & _ & _ & _ & Hlen & Htotal).
  destruct Htotal as [lines Hlines].
  - intros x stats Hx Hs. vm_compute in Hx.
    apply elem_of_cons in Hx as [-> | Hx];
      [|apply elem_of_cons in Hx as [-> | Hx]; [|by apply elem_of_nil in Hx]];
      vm_compute in Hs; injection Hs as <-; eexists; reflexivity.
  - exists lines. split; [exact Hlines|]. by rewrite (Hlen lines Hlines).
Defined.

(** Claim C9 at a week with one pairing and one entry whose [matchup_id]
    is [null]: the group of the [null] key is looked up under [NaN], is not
    found, and reading its length throws, where the claim has it silently
    omitted. *)
Theorem formatMatchupsTable_null_id_throws `{NumberFormat}
    (players : gmap string Player.t) (users : list User.t)
    (rosters : list Roster.t) (week : Z) (a b bye : Matchup.t) :
  Matchup.matchup_id a = Some 1 → Matchup.matchup_id b = Some 1 →
  Matchup.matchup_id bye = None →
  formatMatchupsTable players [a; b; bye] users rosters week
  = Throw "TypeError: Cannot read properties of undefined (reading 'length')".
Proof.
  intros Ha Hb Hbye. unfold formatMatchupsTable, groupByMatchup. simpl.
  rewrite Ha, Hb, Hbye. vm_compute. reflexivity.
Qed.

Lemma formatMatchupsTable_null_id_throws_witness :
  formatMatchupsTable (H := plainFormat) ∅
    [Matchup.mk (Some 1) 1 0%float [] []; Matchup.mk (Some 1) 2 0%float [] [];
     Matchup.mk None 3 0%float [] []] [] [] 15
  = Throw "TypeError: Cannot read properties of undefined (reading 'length')".
Proof.
  apply (formatMatchupsTable_null_id_throws (H := plainFormat)); reflexivity.
Defined.

(** ** Dictionaries filled in a loop *)

Section FoldInsert.
Context `{Countable K} {V A : Type} (key : A → K).


(** [for (x of l) { if (!o[key(x)]) o[key(x)] = []; o[key(x)].push(x) }]:
    each key holds the elements of that key, in input order. *)
Lemma foldl_group_lookup (l : list A) (k : K) :
  foldl (λ (o : gmap K (list A)) x, <[key x := default [] (o !! key x) ++ [x]]> o) ∅ l
    !! k =
    match filter (λ x, key x = k) l with
    | [] => None
    | group => Some group
    end.
Proof.
  induction l as [|x l IH] using rev_ind; [done|].
  rewrite foldl_snoc, filter_app, filter_cons, filter_nil.
  destruct (decide (key x = k)) as [Hk|Hk].
  - subst k. rewrite lookup_insert_eq, IH.
    by destruct (filter (λ y, key y = key x) l).
  - rewrite app_nil_r, lookup_insert_ne by done. exact IH.
Qed.

Lemma foldl_group_keys (l : list A) :
  keys (foldl (λ (o : gmap K (list A)) x, <[key x := default [] (o !! key x) ++ [x]]> o)
              ∅ l)
  ≡ₚ remove_dups (key <$> l).
Proof.
  apply NoDup_Permutation.
  - apply NoDup_fst_map_to_list.
  - apply NoDup_remove_dups.
  - intros k. unfold keys. rewrite elem_of_remove_dups. split.
    + intros ([k' group] & -> & Hin%elem_of_map_to_list)%list_elem_of_fmap. simpl in *.
      rewrite foldl_group_lookup in Hin.
      destruct (filter (λ x, key x = k') l) as [|x group'] eqn:Hf; [done|].
      assert (x ∈ filter (λ x, key x = k') l) as [Hx ?]%list_elem_of_filter
        by (rewrite Hf; by left).
      apply list_elem_of_fmap. exists x. by split.
    + intros (x & -> & Hx)%list_elem_of_fmap.
      destruct (filter (λ y, key y = key x) l) as [|y group] eqn:Hf.
      { assert (x ∈ filter (λ y, key y = key x) l) as Hin
          by (by apply list_elem_of_filter).
        rewrite Hf in Hin. by apply elem_of_nil in Hin. }
      apply list_elem_of_fmap. exists (key x, y :: group). split; [done|].
      apply elem_of_map_to_list.
      by rewrite foldl_group_lookup, Hf.
Qed.

End FoldInsert.


(** ** The bracket listing *)

Lemma sort_numbers_perm (l l' : list Z) : l ≡ₚ l' → sort_numbers l = sort_numbers l'.
Proof.
  intros Hperm. apply js_sort_perm; [|apply sort_numbers_sorted].
  rewrite Hperm. symmetry. apply sort_by_perm.
Qed.

Lemma flat_map_ext_elem {A B} (f g : A → list B) (l : list A) :
  (∀ a, a ∈ l → f a = g a) → flat_map f l = flat_map g l.
Proof.
  induction l as [|a l IH]; intros Hfg; simpl; [done|].
  rewrite Hfg by (by left). rewrite IH; [done|]. intros b Hb. apply Hfg. by right.
Qed.

(** Splitting a list by a key and gluing the classes together again, one
    class per key, gives the list back up to order. *)
Lemma flat_map_filter_perm `{EqDecision K} {A} (key : A → K) (ks : list K) (l : list A) :
  NoDup ks → (∀ x, x ∈ l → key x ∈ ks) →
  flat_map (λ k, filter (λ x, key x = k) l) ks ≡ₚ l.
Proof.
  intros Hks. revert l. induction Hks as [|k ks Hk _ IH]; intros l Hl; simpl.
  - destruct l as [|x l]; [done|]. specialize (Hl x (list_elem_of_here _ _)).
    by apply elem_of_nil in Hl.
  - trans (filter (λ x, key x = k) l ++ filter (λ x, key x ≠ k) l);
      [|apply filter_app_complement].
    apply Permutation_app; [done|].
    rewrite <-(IH (filter (λ x, key x ≠ k) l)).
    + apply Permutation_refl'. apply flat_map_ext_elem. intros k' Hk'.
      rewrite list_filter_filter. apply list_filter_iff. intros x.
      split; [|tauto]. intros Hx. split; try done. intros Hx'. by subst.
    + intros x [Hx Hin]%list_elem_of_filter.
      specialize (Hl x Hin). apply elem_of_cons in Hl as [?|?]; done.
Qed.

Lemma StronglySorted_mono_on {A} (P : A → Prop) (R1 R2 : relation A) (l : list A) :
  (∀ a b, P a → P b → R1 a b → R2 a b) →
  Forall P l → StronglySorted R1 l → StronglySorted R2 l.
Proof.
  intros Himpl HP. induction 1 as [|x l Hl IH Hx]; [constructor|].
  apply Forall_cons in HP as [Px Pl]. constructor; [by apply IH|].
  rewrite Forall_forall in Hx, Pl. apply Forall_forall. intros y Hy.
  apply Himpl; auto.
Qed.

Lemma numeral_le_single_digit (a b : Z) :
  0 ≤ a ≤ 9 → 0 ≤ b ≤ 9 → numeral_le a b → a ≤ b.
Proof.
  intros Ha Hb.
  assert (a = 0 ∨ a = 1 ∨ a = 2 ∨ a = 3 ∨ a = 4 ∨ a = 5 ∨ a = 6 ∨ a = 7 ∨ a = 8 ∨ a = 9)
    as Ea by lia.
  assert (b = 0 ∨ b = 1 ∨ b = 2 ∨ b = 3 ∨ b = 4 ∨ b = 5 ∨ b = 6 ∨ b = 7 ∨ b = 8 ∨ b = 9)
    as Eb by lia.
  clear Ha Hb.
  destruct Ea as [->|[->|[->|[->|[->|[->|[->|[->|[->| ->]]]]]]]]];
    destruct Eb as [->|[->|[->|[->|[->|[->|[->|[->|[->| ->]]]]]]]]];
    intros Hle; first [lia | by vm_compute in Hle].
Qed.

(** X2.  A non-empty bracket is listed round by round: for each round in
    the emitted order a header and a rule, then the round's matches by
    ascending match id, one line each; taken together the listed matches are
    the matches of the bracket, none lost and none repeated. *)
Theorem formatBracket_lines (bracket : list Match.t) (rosterToUser : gmap Z string) :
  bracket ≠ [] →
  formatBracket bracket rosterToUser =
    flat_map (λ roundNum,
                roundHeader roundNum
                  ++ ((λ x, formatMatch x rosterToUser) <$> roundMatches bracket roundNum))
             (roundsEmitted bracket)
  ∧ flat_map (roundMatches bracket) (roundsEmitted bracket) ≡ₚ bracket
  ∧ ∀ roundNum, StronglySorted (λ a b, Match.m a ≤ Match.m b)
                               (roundMatches bracket roundNum).
Proof.
  intros Hne. split; [|split].
  - unfold formatBracket. destruct bracket as [|x0 bracket0]; [done|].
    set (bracket := x0 :: bracket0). unfold roundsEmitted, groupByRound.
    rewrite (sort_numbers_perm _ _ (foldl_group_keys Match.r bracket)).
    apply flat_map_ext. intros roundNum. unfold formatRound, roundMatches.
    rewrite (foldl_group_lookup Match.r bracket roundNum).
    by destruct (filter (λ x, Match.r x = roundNum) bracket).
  - unfold roundsEmitted, roundMatches.
    trans (flat_map (λ k, filter (λ x, Match.r x = k) bracket)
                    (sort_numbers (remove_dups (Match.r <$> bracket))));
      [|apply flat_map_filter_perm].
    + induction (sort_numbers (remove_dups (Match.r <$> bracket))) as [|k ks IH];
        [done|]. simpl. apply Permutation_app; [|done]. apply sort_by_perm.
    + unfold sort_numbers. rewrite sort_by_perm. apply NoDup_remove_dups.
    + intros x Hx. unfold sort_numbers. rewrite sort_by_perm.
      apply elem_of_remove_dups, list_elem_of_fmap. eauto.
  - intros roundNum. apply (sort_cmp_key_sorted Match.m).
Qed.

Lemma formatBracket_lines_witness :
  flat_map (roundMatches (sampleWinners ++ sampleLosers))
           (roundsEmitted (sampleWinners ++ sampleLosers))
  ≡ₚ sampleWinners ++ sampleLosers.
Proof.
  destruct (formatBracket_lines (sampleWinners ++ sampleLosers) ∅) as (_ & Hperm & _).
  - discriminate.
  - exact Hperm.
Defined.

(** X3.  When every round number of the bracket is a single digit, the
    rounds are emitted in strictly ascending numeric order. *)
Theorem roundsEmitted_single_digit (bracket : list Match.t) :
  (∀ x, x ∈ bracket → 0 ≤ Match.r x ≤ 9) →
  StronglySorted Z.lt (roundsEmitted bracket).
Proof.
  intros Hdigit. unfold roundsEmitted.
  assert (Forall (λ n, 0 ≤ n ≤ 9) (sort_numbers (remove_dups (Match.r <$> bracket))))
    as Hrange.
  { apply Forall_forall. intros n Hn. unfold sort_numbers in Hn.
    rewrite sort_by_perm in Hn.
    apply elem_of_remove_dups, list_elem_of_fmap in Hn as (x & -> & Hx). auto. }
  assert (NoDup (sort_numbers (remove_dups (Match.r <$> bracket)))) as Hnodup.
  { unfold sort_numbers. rewrite sort_by_perm. apply NoDup_remove_dups. }
  pose proof (sort_numbers_sorted (remove_dups (Match.r <$> bracket))) as Hsorted.
  induction Hsorted as [|n l Hl IH Hn]; [constructor|].
  apply Forall_cons in Hrange as [Hn9 Hl9]. apply NoDup_cons in Hnodup as [Hnl Hnd].
  constructor; [by apply IH|].
  rewrite Forall_forall in Hn, Hl9. apply Forall_forall. intros k Hk.
  pose proof (numeral_le_single_digit n k Hn9 (Hl9 k Hk) (Hn k Hk)).
  assert (n ≠ k) by (intros ->; done). lia.
Qed.

Lemma roundsEmitted_single_digit_witness :
  StronglySorted Z.lt (roundsEmitted (sampleWinners ++ sampleLosers)).
Proof.
  apply roundsEmitted_single_digit. intros x Hx.
  apply elem_of_cons in Hx as [-> | Hx]; [vm_compute; split; discriminate|].
  apply elem_of_cons in Hx as [-> | Hx]; [vm_compute; split; discriminate|].
  by apply elem_of_nil in Hx.
Defined.

(** ** Enrichment and the search index *)

Lemma enrichPlayerIds_player_ids (players : gmap string Player.t)
    (playerIds : list string) :
  EnrichedPlayer.player_id <$> enrichPlayerIds players playerIds = playerIds.
Proof.
  unfold enrichPlayerIds. change (map ?f ?l) with (f <$> l).
  rewrite <-list_fmap_compose. rewrite <-(list_fmap_id playerIds) at 2.
  apply list_fmap_ext. intros i playerId _. simpl. unfold enrichPlayer.
  by destruct (playerOf players playerId).
Qed.

(** X4.  Enrichment answers every id, in input order, under the id it was
    asked for.  An id that is no entry of the directory gets the placeholder
    record, unless it names a member inherited from [Object.prototype]
    ([constructor], [toString], ...): the lookup finds that member, and the
    record is the blank one, with an empty name and an empty status. *)
Theorem enrichPlayerIds_ids (players : gmap string Player.t) (playerIds : list string) :
  EnrichedPlayer.player_id <$> enrichPlayerIds players playerIds = playerIds
  ∧ ∀ i playerId, playerIds !! i = Some playerId → players !! playerId = None →
      enrichPlayerIds players playerIds !! i =
        Some (if bool_decide (playerId ∈ objectPrototypeKeys)
              then EnrichedPlayer.mk playerId "" "" "" "" []
              else EnrichedPlayer.mk playerId "Unknown Player" "" "" "Unknown" []).
Proof.
  split; [apply enrichPlayerIds_player_ids|].
  - intros i playerId Hi Hnone. unfold enrichPlayerIds.
    change (map ?f ?l) with (f <$> l). rewrite list_lookup_fmap, Hi. simpl.
    unfold enrichPlayer, playerOf. rewrite Hnone.
    by destruct (bool_decide (playerId ∈ objectPrototypeKeys)).
Qed.

Lemma enrichPlayerIds_ids_witness :
  enrichPlayerIds sampleDirectory ["4046"; "17"; "constructor"] !! 1%nat =
    Some (EnrichedPlayer.mk "17" "Unknown Player" "" "" "Unknown" [])
  ∧ enrichPlayerIds sampleDirectory ["4046"; "17"; "constructor"] !! 2%nat =
      Some (EnrichedPlayer.mk "constructor" "" "" "" "" []).
Proof.
  destruct (enrichPlayerIds_ids sampleDirectory ["4046"; "17"; "constructor"])
    as [_ Habsent].
  split.
  - apply (Habsent 1%nat "17"); [reflexivity | vm_compute; reflexivity].
  - apply (Habsent 2%nat "constructor"); [reflexivity | vm_compute; reflexivity].
Defined.

Lemma NoDup_fmap_omap {A B C} (f : B → C) (g : A → option B) (h : A → C) (l : list A) :
  (∀ x y, g x = Some y → f y = h x) → NoDup (h <$> l) → NoDup (f <$> omap g l).
Proof.
  intros Hfg. induction l as [|x l IH]; simpl; [constructor|].
  intros [Hx Hl]%NoDup_cons. destruct (g x) as [y|] eqn:Hg; simpl; [|by apply IH].
  apply NoDup_cons. split; [|by apply IH].
  rewrite (Hfg x y Hg). intros (y' & Hy' & (x' & Hx' & Hg')%list_elem_of_omap)%list_elem_of_fmap.
  apply Hx. apply list_elem_of_fmap. exists x'. split; [|done].
  by rewrite Hy', (Hfg x' y' Hg').
Qed.

(** X5.  The search index holds one item per directory player whose display
    name is not empty, under the player's id and with that name, and no
    other item; no id occurs twice. *)
Theorem searchItems_spec (players : gmap string Player.t) :
  (∀ item, item ∈ searchItems players ↔
     ∃ player, players !! PlayerSearchItem.id item = Some player
       ∧ displayName player ≠ ""
       ∧ item = {| PlayerSearchItem.id := PlayerSearchItem.id item;
                   PlayerSearchItem.name := displayName player;
                   PlayerSearchItem.position := default "" (Player.position player);
                   PlayerSearchItem.team := default "" (Player.team player) |})
  ∧ NoDup (PlayerSearchItem.id <$> searchItems players).
Proof.
  split.
  - intros item. unfold searchItems. rewrite list_elem_of_omap. split.
    + intros ([playerId player] & Hin%elem_of_map_to_list & Hitem).
      unfold searchItem in Hitem. case_decide; [done|]. injection Hitem as <-.
      simpl. exists player. by rewrite !or_else_default.
    + intros (player & Hp & Hname & Hitem).
      exists (PlayerSearchItem.id item, player). split; [by apply elem_of_map_to_list|].
      unfold searchItem. rewrite decide_False by done.
      rewrite !or_else_default. f_equal. symmetry. exact Hitem.
  - unfold searchItems. apply (NoDup_fmap_omap _ _ fst).
    + intros [playerId player] item Hitem. unfold searchItem in Hitem.
      case_decide; [done|]. by injection Hitem as <-.
    + apply NoDup_fst_map_to_list.
Qed.

Lemma searchItems_spec_witness :
  PlayerSearchItem.mk "4046" "Josh Allen" "QB" "BUF" ∈ searchItems sampleDirectory.
Proof.
  destruct (searchItems_spec sampleDirectory) as [Hitems _].
  apply Hitems. exists joshAllen. split; [by vm_compute|]. split; [|by vm_compute].
  vm_compute. discriminate.
Defined.

(** ** The client over its lifetime *)

Lemma searchItems_empty : searchItems ∅ = [].
Proof. unfold searchItems. by rewrite map_to_list_empty. Qed.

Lemma coherent_new : coherent newSleeperAPI.
Proof.
  unfold coherent, newSleeperAPI. simpl. rewrite searchItems_empty.
  split; [done|]. split; [by left|]. done.
Qed.

Lemma ensurePlayersLoaded_coherent (s : State) :
  coherent s.1 → coherent (ensurePlayersLoaded s).2.1.
Proof.
  destruct s as [api world]. intros Hc.
  unfold ensurePlayersLoaded, bind, this. simpl.
  destruct (playersLoaded api) eqn:Hl; simpl; [done|].
  unfold loadPlayersCache, getCacheData, isCacheValid, refreshPlayersCache,
    getPlayers, fetch, bind, this, Date_now. simpl.
  destruct (playersCache api) as [cache|] eqn:Hcache; simpl.
  - destruct (now world - 1000 * CacheData.timestamp cache
                <? CACHE_DURATION_HOURS * 3600 * 1000); simpl.
    + unfold coherent. simpl. rewrite Hcache. eauto 8.
    + destruct (responses world) as [|response rest]; simpl; [exact Hc|].
      destruct (Response.ok response); simpl; [|exact Hc].
      unfold coherent. simpl. eauto 8.
  - destruct (responses world) as [|response rest]; simpl; [exact Hc|].
    destruct (Response.ok response); simpl; [|exact Hc].
    unfold coherent. simpl. eauto 8.
Qed.

Section Lifetime.
Context `{Fuse}.

Lemma call_coherent (c : Call) (s : State) : coherent s.1 → coherent (call c s).1.
Proof.
  intros Hc. pose proof (ensurePlayersLoaded_coherent s Hc) as He.
  destruct c as [|playerInput|query limit]; simpl; [done|..].
  - unfold resolvePlayerInput. destruct (digits_only playerInput); [done|].
    unfold getPlayerIdByName, bind, this.
    destruct (ensurePlayersLoaded s) as [[[]|message] [api world]]; [|done].
    simpl in *. destruct (playerFuse api) as [index|] eqn:Hfuse; simpl.
    + unfold search. simpl. rewrite Hfuse.
      by destruct (fuse_search index playerInput 1).
    + unfold search. simpl.
      assert (coherent (set_searchIndex (searchItems (players api)) api)) as Hc'.
      { destruct He as (_ & _ & Hloaded). unfold coherent. simpl.
        split; [done|]. split; [by right|]. intros Hl.
        destruct (Hloaded Hl) as [? _]. congruence. }
      by destruct (fuse_search (searchItems (players api)) playerInput 1).
  - unfold searchPlayers, bind, this.
    destruct (ensurePlayersLoaded s) as [[[]|message] [api world]]; [|done].
    simpl in *. destruct (playerFuse api) as [index|] eqn:Hfuse; simpl.
    + unfold search. simpl. by rewrite Hfuse.
    + unfold search. simpl.
      destruct He as (_ & _ & Hloaded). unfold coherent. simpl.
      split; [done|]. split; [by right|]. intros Hl.
      destruct (Hloaded Hl) as [? _]. congruence.
Qed.

(** X6.  Whatever a client is asked over its lifetime and whatever the
    directory endpoint answers, its search index is the one built from its
    current directory, and once it is loaded its snapshot holds that same
    directory: an index is never left behind by a newer directory. *)
Theorem client_coherent (calls : list Call) (world : World) :
  coherent (run calls (newSleeperAPI, world)).1.
Proof.
  unfold run. induction calls as [|c calls IH] using rev_ind.
  - apply coherent_new.
  - rewrite foldl_snoc. by apply call_coherent.
Qed.

Lemma call_loaded (c : Call) (api : SleeperAPI) (world : World) :
  playersLoaded api = true → is_Some (playerFuse api) →
  call c (api, world) =
    (api, {| now := now world; responses := responses world;
             events := events world ++ searchesOf [c] |}).
Proof.
  intros Hl [index Hfuse]. destruct world as [t rs es].
  destruct c as [|playerInput|query limit]; simpl.
  - rewrite ensurePlayersLoaded_loaded by done. simpl. by rewrite app_nil_r.
  - unfold resolvePlayerInput. destruct (digits_only playerInput); simpl.
    { by rewrite app_nil_r. }
    unfold getPlayerIdByName, bind. rewrite ensurePlayersLoaded_loaded by done.
    unfold this, search. simpl. rewrite Hfuse. simpl. rewrite Hfuse.
    by destruct (fuse_search index playerInput 1).
  - unfold searchPlayers, bind. rewrite ensurePlayersLoaded_loaded by done.
    unfold this, search. simpl. rewrite Hfuse. simpl. by rewrite Hfuse.
Qed.

(** X7.  Once a client is loaded, no sequence of calls, however long and at
    whatever clock readings, fetches the directory again or changes the
    client: the pending answers of the endpoint are left unconsumed and the
    only events added are the index searches the calls ask for. *)
Theorem loaded_client_never_refetches (calls : list Call)
    (api : SleeperAPI) (world : World) :
  playersLoaded api = true → is_Some (playerFuse api) →
  run calls (api, world) =
    (api, {| now := now world; responses := responses world;
             events := events world ++ searchesOf calls |}).
Proof.
  intros Hl Hfuse. unfold run. induction calls as [|c calls IH] using rev_ind.
  - simpl. rewrite app_nil_r. by destruct world.
  - rewrite foldl_snoc, IH, call_loaded by done. simpl.
    unfold searchesOf. by rewrite omap_app, app_assoc.
Qed.

End Lifetime.

(** X8.  When the directory request of a cold client is answered with a
    non-success status, the load throws [HTTP error! status: ] followed by
    the status, the client is left exactly as it was (still unloaded, so the
    next call asks again), and a name to resolve gets that same error. *)
Theorem ensurePlayersLoaded_http_error `{Fuse} (api : SleeperAPI) (world : World)
    (response : Response.t) (rest : list Response.t) (playerInput : string) :
  playersLoaded api = false → playersCache api = None →
  responses world = response :: rest → Response.ok response = false →
  let message := "HTTP error! status: " +:+ pretty (Response.status response) in
  let after :=
    (api, {| now := now world + Z.of_N (Response.elapsed response);
             responses := rest;
             events := events world ++ [Fetched playersUrl] |}) in
  ensurePlayersLoaded (api, world) = (Throw message, after)
  ∧ (digits_only playerInput = false →
     resolvePlayerInput playerInput (api, world) = (Throw message, after)).
Proof.
  intros Hl Hcache Hr Hok message after.
  assert (ensurePlayersLoaded (api, world) = (Throw message, after)) as He.
  { unfold ensurePlayersLoaded, loadPlayersCache, getCacheData, refreshPlayersCache,
      getPlayers, fetch, bind, this. simpl. rewrite Hl. simpl. rewrite Hcache. simpl.
    rewrite Hr. simpl. by rewrite Hok. }
  split; [done|]. intros Hd. unfold resolvePlayerInput. rewrite Hd.
  unfold getPlayerIdByName, bind. by rewrite He.
Qed.

Lemma ensurePlayersLoaded_http_error_witness :
  ensurePlayersLoaded
    (newSleeperAPI, {| now := 0; responses := [failedResponse]; events := [] |})
  = (Throw "HTTP error! status: 503",
     (newSleeperAPI, {| now := 0; responses := []; events := [Fetched playersUrl] |})).
Proof.
  exact (proj1 (ensurePlayersLoaded_http_error (H := λ _ _ _, []) newSleeperAPI
                  {| now := 0; responses := [failedResponse]; events := [] |}
                  failedResponse [] "josh" eq_refl eq_refl eq_refl eq_refl)).
Defined.

Lemma loaded_client_never_refetches_witness :
  run (H := λ _ _ _, []) [CallEnsure; CallResolve "josh"; CallSearch "allen" 5]
      (atTime (24 * 3600 * 1000 + 60000) afterLoad)
  = (afterLoad.1,
     {| now := 24 * 3600 * 1000 + 60000; responses := [directoryResponse];
        events := [Fetched playersUrl; Searched "josh" 1; Searched "allen" 5] |}).
Proof.
  unfold atTime.
  rewrite (loaded_client_never_refetches (H := λ _ _ _, [])); [| reflexivity | ].
  - vm_compute. reflexivity.
  - vm_compute. eexists. reflexivity.
Defined.

(** ** Property keys and the matchup table *)

Lemma is_nat_pretty_N_char (d : N) :
  (d < 10)%N → Ascii.is_nat (pretty_N_char d) = Some (N.to_nat d).
Proof.
  intros Hd.
  assert (d = 0 ∨ d = 1 ∨ d = 2 ∨ d = 3 ∨ d = 4 ∨ d = 5 ∨ d = 6 ∨ d = 7 ∨ d = 8 ∨ d = 9)%N
    as Ed by lia.
  by destruct Ed as [->|[->|[->|[->|[->|[->|[->|[->|[->| ->]]]]]]]]].
Qed.

Lemma digitsValue_pretty_N_go (x : N) (s : string) :
  digitsValue None (pretty_N_go x s) =
    digitsValue (if decide (x = 0%N) then None else Some (Z.of_N x)) s.
Proof.
  revert s. induction (N.lt_wf_0 x) as [x _ IH]. intros s.
  destruct (decide (x = 0%N)) as [->|Hx]; [done|].
  rewrite pretty_N_go_step by lia. rewrite IH by (apply N.div_lt; lia).
  cbn [digitsValue]. rewrite is_nat_pretty_N_char by (apply N.mod_lt; lia).
  f_equal. f_equal. pose proof (N.div_mod x 10 ltac:(done)) as Hdm.
  destruct (decide ((x `div` 10)%N = 0%N)) as [Hq|Hq]; simpl.
  all: rewrite N_nat_Z; lia.
Qed.

Lemma pretty_N_go_head (x : N) (s : string) :
  (0 < x)%N → ∃ d rest, (d < 10)%N ∧ pretty_N_go x s = String (pretty_N_char d) rest.
Proof.
  revert s. induction (N.lt_wf_0 x) as [x _ IH]. intros s Hx.
  rewrite pretty_N_go_step by done.
  destruct (decide ((x `div` 10)%N = 0%N)) as [->|Hq].
  - rewrite pretty_N_go_0. exists (x `mod` 10)%N, s. split; [|done].
    apply N.mod_lt. lia.
  - apply IH; [apply N.div_lt; lia | by apply N.neq_0_lt_0].
Qed.

Lemma parseInt_digit_head (d : N) (rest : string) :
  (d < 10)%N →
  parseInt (String (pretty_N_char d) rest) = digitsValue None (String (pretty_N_char d) rest).
Proof.
  intros Hd.
  assert (d = 0 ∨ d = 1 ∨ d = 2 ∨ d = 3 ∨ d = 4 ∨ d = 5 ∨ d = 6 ∨ d = 7 ∨ d = 8 ∨ d = 9)%N
    as Ed by lia.
  by destruct Ed as [->|[->|[->|[->|[->|[->|[->|[->|[->| ->]]]]]]]]].
Qed.

Lemma parseInt_pretty_pos (p : positive) : parseInt (pretty (N.pos p)) = Some (Z.pos p).
Proof.
  unfold pretty, pretty_N. rewrite decide_False by done.
  destruct (pretty_N_go_head (N.pos p) "") as (d & rest & Hd & Hhead); [lia|].
  rewrite Hhead, parseInt_digit_head, <-Hhead by done.
  by rewrite digitsValue_pretty_N_go.
Qed.

Lemma parseInt_pretty (z : Z) : parseInt (pretty z) = Some z.
Proof.
  destruct z as [|p|p]; [done|apply parseInt_pretty_pos|].
  unfold pretty, pretty_Z. change ("-" +:+ ?s) with (String "-" s).
  unfold parseInt. cbn [trimStart Ascii.is_space].
  pose proof (parseInt_pretty_pos p) as Hp. unfold pretty, pretty_N in *.
  rewrite decide_False in * by done.
  destruct (pretty_N_go_head (N.pos p) "") as (d & rest & Hd & Hhead); [lia|].
  rewrite Hhead, parseInt_digit_head, <-Hhead in Hp by done.
  unfold pretty_positive, pretty, pretty_N. rewrite decide_False by done.
  by rewrite Hp.
Qed.

Lemma keyOfId_not_NaN (o : option Z) : keyOfId o ≠ "NaN".
Proof.
  destruct o as [y|]; simpl; [|done].
  intros Hy. pose proof (parseInt_pretty y) as Hp. by rewrite Hy in Hp.
Qed.

Lemma sort_strings_perm (l l' : list string) : l ≡ₚ l' → sort_strings l = sort_strings l'.
Proof.
  intros Hperm.
  assert (∀ k, StronglySorted String.le (sort_strings k)) as Hsorted.
  { intros k. unfold sort_strings.
    eapply (StronglySorted_mono (λ a b, String.leb a b = true)).
    - intros a b Hab. by apply Is_true_true.
    - apply sort_by_sorted.
      + intros a b. apply String.leb_total.
      + intros a b c ?%Is_true_true ?%Is_true_true. apply Is_true_true.
        by trans b. }
  apply (StronglySorted_unique String.le); [apply Hsorted..|].
  unfold sort_strings. by rewrite !sort_by_perm.
Qed.

Lemma mapM_Ok_fmap {A B} (f : A → result B) (g : A → B) (l : list A) :
  (∀ x, x ∈ l → f x = Ok (g x)) → mapM f l = Ok (g <$> l).
Proof.
  induction l as [|x l IH]; intros Hf; simpl; [done|].
  rewrite Hf by (by left). simpl. rewrite IH; [done|].
  intros y Hy. apply Hf. by right.
Qed.

Lemma mapM_Throw {A B} (f : A → result B) (l : list A) (message : string) :
  (∀ x e, f x = Throw e → e = message) →
  (∃ x, x ∈ l ∧ f x = Throw message) → mapM f l = Throw message.
Proof.
  intros Honly. induction l as [|x l IH]; intros (y & Hy & Hfy).
  { by apply elem_of_nil in Hy. }
  simpl. destruct (f x) as [v|e] eqn:Hfx; simpl.
  - rewrite IH; [done|]. apply elem_of_cons in Hy as [->|Hy]; [congruence|eauto].
  - by rewrite (Honly x e Hfx).
Qed.

Lemma concat_fmap_flat_map {A B} (g : A → list B) (l : list A) :
  concat (g <$> l) = flat_map g l.
Proof. induction l as [|x l IH]; [done|]. cbn. f_equal. exact IH. Qed.

Section MatchupFacts.
Context `{NumberFormat}.
Variable players : gmap string Player.t.

Lemma groupByMatchup_lookup (matchups : list Matchup.t) (key : string) :
  default [] (groupByMatchup matchups !! key)
  = filter (λ matchup, matchupKey matchup = key) matchups.
Proof.
  unfold groupByMatchup. rewrite (foldl_group_lookup matchupKey matchups key).
  by destruct (filter _ matchups).
Qed.

Lemma groupByMatchup_keys (matchups : list Matchup.t) :
  sort_strings (keys (groupByMatchup matchups)) = keysEmitted matchups.
Proof. apply sort_strings_perm, (foldl_group_keys matchupKey). Qed.

(** X10.  When the week and every entry's [matchup_id] are safe integers,
    the table is produced, and after its three header lines it lists, in the
    order of the keys as strings, one block for each id that has exactly two
    entries and nothing for any other id. *)
Theorem formatMatchupsTable_pairings (matchups : list Matchup.t)
    (users : list User.t) (rosters : list Roster.t) (week : Z) :
  matchups ≠ [] →
  isSafeInteger week = true →
  Forall (λ matchup, ∃ id, Matchup.matchup_id matchup = Some id
                           ∧ isSafeInteger id = true) matchups →
  formatMatchupsTable players matchups users rosters week =
    Ok (String.concat nl
          (["WEEK " +:+ pretty week +:+ " MATCHUPS"; repeat "=" 80; ""]
           ++ flat_map
                (λ key,
                   let teams := filter (λ matchup, matchupKey matchup = key) matchups in
                   if (length teams =? 2)%nat
                   then formatPairing players (buildRosterToUser users rosters) key teams
                   else [])
                (keysEmitted matchups))).
Proof.
  intros Hne _ Hids. unfold formatMatchupsTable.
  destruct matchups as [|m0 ms]; [done|]. set (matchups := m0 :: ms) in *.
  rewrite groupByMatchup_keys.
  rewrite (mapM_Ok_fmap _
    (λ key, let teams := filter (λ matchup, matchupKey matchup = key) matchups in
            if (length teams =? 2)%nat
            then formatPairing players (buildRosterToUser users rosters) key teams
            else [])).
  - cbn [rbind]. by rewrite concat_fmap_flat_map.
  - intros key Hkey. unfold keysEmitted, sort_strings in Hkey.
    rewrite sort_by_perm in Hkey.
    apply elem_of_remove_dups, list_elem_of_fmap in Hkey as (matchup & -> & Hin).
    rewrite Forall_forall in Hids. destruct (Hids matchup Hin) as (z & Hz & _).
    assert (matchupKey matchup = pretty z) as -> by (unfold matchupKey; by rewrite Hz).
    unfold formatGroup. rewrite parseInt_pretty. cbn [keyOfNumber].
    pose proof (groupByMatchup_lookup matchups (pretty z)) as Hg.
    destruct (groupByMatchup matchups !! pretty z) as [teams|] eqn:Hteams;
      simpl in Hg.
    + cbn zeta. rewrite <-Hg. by destruct (length teams =? 2)%nat.
    + assert (matchup ∈ filter (λ m, matchupKey m = pretty z) matchups) as Hm.
      { apply list_elem_of_filter. split; [|done]. unfold matchupKey. by rewrite Hz. }
      rewrite <-Hg in Hm. by apply elem_of_nil in Hm.
Qed.

(** X11.  As soon as one entry carries a [null] matchup id, the whole
    table fails with the [TypeError] of reading the length of a group that
    is not there, whatever the other entries are. *)
Theorem formatMatchupsTable_null_throws (matchups : list Matchup.t)
    (users : list User.t) (rosters : list Roster.t) (week : Z) (bye : Matchup.t) :
  bye ∈ matchups → Matchup.matchup_id bye = None →
  formatMatchupsTable players matchups users rosters week =
    Throw "TypeError: Cannot read properties of undefined (reading 'length')".
Proof.
  intros Hin Hnull. unfold formatMatchupsTable.
  destruct matchups as [|m0 ms]; [by apply elem_of_nil in Hin|].
  set (matchups := m0 :: ms) in *.
  rewrite groupByMatchup_keys.
  rewrite (mapM_Throw _ _
             "TypeError: Cannot read properties of undefined (reading 'length')");
    [done|..].
  - intros key e. unfold formatGroup.
    destruct (groupByMatchup matchups !! _) as [teams|]; [|by intros [= <-]].
    by destruct (length teams =? 2)%nat.
  - exists "null". split.
    + unfold keysEmitted, sort_strings. rewrite sort_by_perm.
      apply elem_of_remove_dups, list_elem_of_fmap. exists bye.
      split; [|done]. unfold matchupKey. by rewrite Hnull.
    + unfold formatGroup. change (keyOfNumber (parseInt "null")) with "NaN".
      pose proof (groupByMatchup_lookup matchups "NaN") as Hg.
      destruct (groupByMatchup matchups !! "NaN") as [teams|] eqn:Hteams; [|done].
      simpl in Hg. exfalso.
      assert (teams ≠ []) as Hne.
      { unfold groupByMatchup in Hteams.
        rewrite (foldl_group_lookup matchupKey matchups "NaN") in Hteams.
        destruct (filter _ matchups); [done|]. by injection Hteams as <-. }
      destruct teams as [|team teams]; [done|].
      assert (team ∈ filter (λ m, matchupKey m = "NaN") matchups) as [Hk _]%list_elem_of_filter
        by (rewrite <-Hg; by left).
      by destruct (keyOfId_not_NaN (Matchup.matchup_id team)).
Qed.

End MatchupFacts.

Lemma formatMatchupsTable_pairings_witness :
  ∃ text, formatMatchupsTable (H := plainFormat) ∅ sampleMatchups [] [] 15 = Ok text.
Proof.
  eexists. apply (formatMatchupsTable_pairings (H := plainFormat)).
  - discriminate.
  - reflexivity.
  - repeat constructor; eexists; (split; reflexivity).
Defined.

Lemma formatMatchupsTable_null_throws_witness :
  formatMatchupsTable (H := plainFormat) ∅ [Matchup.mk None 3 0%float [] []] [] [] 15
  = Throw "TypeError: Cannot read properties of undefined (reading 'length')".
Proof.
  apply (formatMatchupsTable_null_throws (H := plainFormat) ∅ _ _ _ _
           (Matchup.mk None 3 0%float [] [])).
  - apply list_elem_of_singleton. reflexivity.
  - reflexivity.
Defined.

(** ** Shape of the standings and of the playoff report *)

Lemma forallb_hasWinner_pending (l : list Match.t) (x : Match.t) :
  x ∈ l → Match.w x = None → forallb hasWinner l = false.
Proof.
  intros Hin Hw. destruct (forallb hasWinner l) eqn:Hall; [|done].
  rewrite forallb_forall in Hall. apply list_elem_of_In, Hall in Hin.
  unfold hasWinner in Hin. by rewrite Hw in Hin.
Qed.

(** X12.  Standings are only ever produced for complete brackets, they come
    in whole pairs of places (two, four, six or eight lines), and with a
    non-empty winners bracket they open with the champion and the
    runner-up. *)
Theorem generateFinalStandings_shape (wb lb : list Match.t)
    (rosterToUser : gmap Z string) (lines : list string) :
  generateFinalStandings wb lb rosterToUser = Some lines →
  forallb hasWinner (wb ++ lb) = true
  ∧ (length lines = 2 ∨ length lines = 4 ∨ length lines = 6 ∨ length lines = 8)%nat
  ∧ (wb ≠ [] → ∃ final rest,
       winnersFinal wb = Some final
       ∧ lines = ("🥇 1st Place: " +:+ rosterLabel rosterToUser (Match.w final))
                 :: ("🥈 2nd Place: " +:+ rosterLabel rosterToUser (Match.l final))
                 :: rest).
Proof.
  intros Hlines.
  destruct (forallb hasWinner (wb ++ lb)) eqn:Hall;
    [|unfold generateFinalStandings in Hlines; by rewrite Hall in Hlines].
  split; [done|].
  rewrite generateFinalStandings_finalPlaces in Hlines by done. cbn zeta in Hlines.
  unfold finalPlaces, placeOf in Hlines. cbn [omap list_omap Z.eqb Pos.eqb orb] in Hlines.
  change (4 - 1) with 3 in Hlines. change (6 - 1) with 5 in Hlines.
  change (8 - 1) with 7 in Hlines.
  destruct (winnersFinal wb) as [final|] eqn:Hfinal;
    destruct (slotMatch 3 lb) as [m3|]; destruct (slotMatch 5 lb) as [m5|];
    destruct (slotMatch 7 lb) as [m7|]; simpl in Hlines; simplify_eq/=;
    (split; [lia|]); intros Hwb;
    first [ by eexists _, _ | by apply winnersFinal_None in Hfinal ].
Qed.

Lemma generateFinalStandings_shape_witness :
  (length ["🥇 1st Place: Roster 1"; "🥈 2nd Place: Roster 2";
           "🥉 3rd Place: Roster 3"; "   4th Place: Roster 4"] = 2
   ∨ length ["🥇 1st Place: Roster 1"; "🥈 2nd Place: Roster 2";
             "🥉 3rd Place: Roster 3"; "   4th Place: Roster 4"] = 4
   ∨ length ["🥇 1st Place: Roster 1"; "🥈 2nd Place: Roster 2";
             "🥉 3rd Place: Roster 3"; "   4th Place: Roster 4"] = 6
   ∨ length ["🥇 1st Place: Roster 1"; "🥈 2nd Place: Roster 2";
             "🥉 3rd Place: Roster 3"; "   4th Place: Roster 4"] = 8)%nat.
Proof.
  refine (proj1 (proj2 (generateFinalStandings_shape sampleWinners sampleLosers ∅ _ _))).
  vm_compute. reflexivity.
Defined.

(** X13.  While any match of either bracket is pending, the playoff report
    consists of the bracket sections only, without a final-standings
    section; with both brackets empty the report is the empty text. *)
Theorem getPlayoffResults_pending (wb lb : list Match.t)
    (leagueUsers : list User.t) (rosters : list Roster.t) (x : Match.t) :
  x ∈ wb ++ lb → Match.w x = None →
  getPlayoffResults wb lb leagueUsers rosters =
    (let rosterToUser := buildRosterToUser leagueUsers rosters in
     String.concat nl
       (bracketSection "🏆 WINNERS BRACKET" wb rosterToUser
        ++ bracketSection "🥉 LOSERS BRACKET" lb rosterToUser))
  ∧ getPlayoffResults [] [] leagueUsers rosters = "".
Proof.
  intros Hin Hw. split; [|done].
  unfold getPlayoffResults, generateFinalStandings.
  rewrite (forallb_hasWinner_pending _ x Hin Hw). cbn [negb]. cbn zeta.
  rewrite app_nil_r. unfold bracketSection. by destruct wb, lb.
Qed.

Lemma getPlayoffResults_pending_witness :
  getPlayoffResults [] [] [] [] = "".
Proof.
  refine (proj2 (getPlayoffResults_pending
                   [Match.mk 1 1 None None None None None None None] [] [] []
                   (Match.mk 1 1 None None None None None None None) _ _)).
  - apply list_elem_of_singleton. reflexivity.
  - reflexivity.
Defined.

(** ** Sibling paths: trending players and raw ranks *)

(** X14.  For a non-empty player id, the info attached to a trending item
    is the record [enrichPlayerIds] builds for that id, without the id; an
    item with a missing or empty id gets the placeholder. *)
Theorem trendingInfo_enrichPlayer (players : gmap string Player.t)
    (player_id : option string) :
  trendingInfo players player_id =
    match player_id with
    | Some playerId =>
        if decide (playerId = "")
        then PlayerInfo.mk "Unknown Player" "" "" "Unknown" []
        else infoOf (enrichPlayer players playerId)
    | None => PlayerInfo.mk "Unknown Player" "" "" "Unknown" []
    end.
Proof.
  unfold trendingInfo, truthy_str. destruct player_id as [playerId|]; [|done].
  destruct (decide (playerId = "")) as [->|Hne]; [done|].
  destruct (String.eqb_spec playerId ""); [done|]. simpl. unfold enrichPlayer.
  by destruct (playerOf players playerId).
Qed.

Section FoldInsertOpt.
Context `{Countable K} {V A : Type} (key : A → option K) (val : A → V).


End FoldInsertOpt.



(** ** Column widths *)

Lemma length_app_string (s1 s2 : string) :
  String.length (s1 +:+ s2) = (String.length s1 + String.length s2)%nat.
Proof. induction s1 as [|a s1 IH]; simpl; [done|]. by rewrite IH. Qed.

Lemma length_repeat_char (a : ascii) (n : nat) :
  String.length (repeat (String a "") n) = n.
Proof.
  induction n as [|n IH]; [done|]. cbn [repeat].
  rewrite length_app_string, IH. done.
Qed.

Lemma length_padStart (n : nat) (s : string) :
  String.length (padStart n s) = cellWidth n s.
Proof. unfold padStart, cellWidth. rewrite length_app_string, length_repeat_char. lia. Qed.

Lemma length_padEnd (n : nat) (s : string) :
  String.length (padEnd n s) = cellWidth n s.
Proof. unfold padEnd, cellWidth. rewrite length_app_string, length_repeat_char. lia. Qed.

(** X16.  A row of the draft-pick table is as wide as its six cells, each
    taking its column width or its own length if that is more, plus the five
    separators; so a row is never narrower than the header and rule, and is
    exactly as wide when every cell fits its column. *)
Theorem draftRow_width (rosterToUser : gmap Z string) (pick : Pick.t) :
  String.length (draftRow rosterToUser pick) =
    (15 + sum_list (zip_with cellWidth draftWidths
                      (draftCells rosterToUser pick)))%nat
  ∧ (String.length draftHeader ≤ String.length (draftRow rosterToUser pick))%nat
  ∧ (Forall2 (λ n cell, (String.length cell ≤ n)%nat) draftWidths
       (draftCells rosterToUser pick) →
     String.length (draftRow rosterToUser pick) = String.length draftHeader).
Proof.
  assert (String.length (draftRow rosterToUser pick) =
    (15 + sum_list (zip_with cellWidth draftWidths
                      (draftCells rosterToUser pick)))%nat) as Hwidth.
  { unfold draftRow, draftCells, draftWidths. cbn zeta.
    rewrite !length_app_string, !length_padStart, !length_padEnd. simpl. lia. }
  split; [exact Hwidth|]. rewrite Hwidth. unfold draftCells, draftWidths. cbn zeta.
  change (String.length draftHeader) with 76%nat.
  cbn [zip_with sum_list sum_list_with]. unfold cellWidth, id.
  split; [lia|]. intros Hfit.
  repeat match goal with
         | H : Forall2 _ (_ :: _) (_ :: _) |- _ => apply Forall2_cons in H as [? H]
         end.
  lia.
Qed.

Lemma draftRow_width_witness :
  String.length (draftRow {[3 := "Team A"]} bryceYoung) = String.length draftHeader.
Proof.
  refine (proj2 (proj2 (draftRow_width {[3 := "Team A"]} bryceYoung)) _).
  vm_compute. repeat constructor.
Defined.

Section RankRowWidth.
Context `{NumberFormat}.

(** X17.  A rendered row of the rank table is as wide as its six cells
    (rank, position rank, name, position, team, points), each taking its
    column width of 4, 8, 26, 3, 4 and 7 or its own length if that is more,
    plus the five separators; so it is never narrower than the header. *)
Theorem rankRow_width (players : gmap string Player.t) (playerData : RankRecord.t)
    (line : string) :
  rankRow players playerData = Ok line →
  String.length line =
    (15 + sum_list (zip_with cellWidth rankWidths (rankCells players playerData)))%nat
  ∧ (String.length ranksHeader ≤ String.length line)%nat.
Proof.
  unfold rankRow, rankCells. destruct (RankRecord.stats playerData) as [stats|]; [|done].
  cbn [mbind option_bind].
  destruct (Stats.rank_ppr stats) as [rankPpr|]; [|done].
  destruct (Stats.pos_rank_ppr stats) as [posRankPpr|]; [|done].
  intros [= <-].
  rewrite !length_app_string, !length_padStart, !length_padEnd.
  change (String.length ranksHeader) with 67%nat. unfold rankWidths.
  cbn [zip_with sum_list sum_list_with from_option].
  unfold cellWidth, id. change (String.length " | ") with 3%nat.
  destruct (playerOf _ _); cbn [from_option]; lia.
Qed.

End RankRowWidth.

Lemma rankRow_width_witness :
  (String.length ranksHeader
   ≤ String.length "   1 |        1 | Unknown Player             | N/A | N/A  |     0.0")%nat.
Proof.
  refine (proj2 (rankRow_width (H := plainFormat) ∅
                   (RankRecord.mk (Some "1") (Some (Stats.mk (Some 1) (Some 1) None)))
                   _ _)).
  vm_compute. reflexivity.
Defined.

(** ** Callers of the enrichment and of the rank sort *)

(** X18.  Enriching a roster leaves its three id lists as they are; a
    non-empty id list gets an enriched list that answers every id in order,
    and a missing or empty id list leaves the enriched field as it was.
    Without the enrichment flag the rosters come back untouched. *)
Theorem enrichRoster_lists (players : gmap string Player.t) (roster : LeagueRoster.t)
    (rosters : list LeagueRoster.t) :
  Forall (λ '(ids, before, after),
            match ids with
            | Some (playerId :: playerIds) =>
                ∃ enriched, after = Some enriched
                  ∧ EnrichedPlayer.player_id <$> enriched = playerId :: playerIds
            | _ => after = before
            end) (rosterLists players roster)
  ∧ LeagueRoster.players (enrichRoster players roster) = LeagueRoster.players roster
  ∧ LeagueRoster.starters (enrichRoster players roster) = LeagueRoster.starters roster
  ∧ LeagueRoster.reserve (enrichRoster players roster) = LeagueRoster.reserve roster
  ∧ getLeagueRosters players rosters false = rosters
  ∧ length (getLeagueRosters players rosters true) = length rosters.
Proof.
  assert (∀ ids before,
    match ids with
    | Some (playerId :: playerIds) =>
        ∃ enriched, enrichList players ids before = Some enriched
          ∧ EnrichedPlayer.player_id <$> enriched = playerId :: playerIds
    | _ => enrichList players ids before = before
    end) as Hlist.
  { intros [[|playerId playerIds]|] before; try done.
    exists (enrichPlayerIds players (playerId :: playerIds)). split; [done|].
    apply enrichPlayerIds_player_ids. }
  split; [|repeat split].
  - unfold rosterLists. repeat constructor; apply Hlist.
  - unfold getLeagueRosters. by rewrite length_map.
Qed.

Section SortStable.
Context {A : Type} (key : A → Z).

Lemma ins_key_filter (k : Z) (x : A) (l : list A) :
  filter (λ y, key y = k) (ins (λ a b, key a - key b <=? 0) x l)
  = filter (λ y, key y = k) (x :: l).
Proof.
  induction l as [|y l IH]; [done|]. cbn [ins].
  destruct (Z.leb_spec (key x - key y) 0) as [Hle|Hgt]; [done|].
  rewrite filter_cons, IH, !filter_cons.
  destruct (decide (key y = k)), (decide (key x = k)); try done. lia.
Qed.

(** Sorting by a numeric key is stable: the elements of one key keep their
    input order. *)
Lemma sort_cmp_stable (k : Z) (l : list A) :
  filter (λ y, key y = k) (sort_cmp (λ a b, key a - key b) l)
  = filter (λ y, key y = k) l.
Proof.
  unfold sort_cmp, sort_by. induction l as [|x l IH]; [done|].
  cbn [foldr]. rewrite ins_key_filter, !filter_cons. by rewrite IH.
Qed.

End SortStable.

(** X19.  The rows of the rank table are the first 200 of a list that holds
    exactly the records with a non-empty player id and a non-zero
    [rank_ppr], in which records of equal rank keep their input order; when
    at most 200 records qualify, none of them is left out. *)
Theorem sortedPlayers_complete (data : list RankRecord.t) :
  let kept := filter (λ x, ranked x = true) data in
  ∃ full, sortedPlayers data = take 200 full
    ∧ full ≡ₚ kept
    ∧ (∀ k, filter (λ x, rankOf x = k) full = filter (λ x, rankOf x = k) kept)
    ∧ ((length kept ≤ 200)%nat → sortedPlayers data ≡ₚ kept).
Proof.
  intros kept. exists (sort_cmp (λ a b, rankOf a - rankOf b) kept).
  split; [done|]. split; [apply sort_by_perm|]. split.
  - intros k. apply (sort_cmp_stable rankOf).
  - intros Hlen. unfold sortedPlayers. fold kept.
    rewrite take_ge; [apply sort_by_perm|].
    unfold sort_cmp. by rewrite sort_by_length.
Qed.

Lemma sortedPlayers_complete_witness :
  sortedPlayers sampleRanks ≡ₚ filter (λ x, ranked x = true) sampleRanks.
Proof.
  destruct (sortedPlayers_complete sampleRanks) as (full & _ & _ & _ & Hall).
  apply Hall. vm_compute. lia.
Defined.
